(** * A one-dimensional diffusion model: the FTCS integrator of
    [notebooks/diffusion-model.ipynb]

    The notebook's numerical core is four statements:
<<
    dt = 0.5 * (dx**2/D)

    for t in range(0, nt):
        C+= D * dt / dx**2 * (np.roll(C, -1) -2*C + np.roll(C,1))
        C[0] = C_left
        C[-1] = C_right
>>
    They are embedded below as functions over lists, generic in the number
    type.  The notebook runs them in binary64 (Python's [float], NumPy's
    [float64]); the loop cell also runs on exact rationals ([Fraction]s in an
    object array), the time-step cell does not, its literal [0.5] being a
    [float].  Python exceptions are results of an error monad. *)

From Stdlib Require Import List ZArith Lia Bool QArith Qcanon Lqa.
From Stdlib Require Import PrimFloat FloatOps SpecFloat FloatAxioms.
Import ListNotations.

Close Scope Qc_scope.
Close Scope Q_scope.

(** ** Python exceptions *)

Inductive PyError : Type :=
| ZeroDivisionError   (* scalar [float] division by zero *)
| OverflowError       (* [float ** 2] out of the binary64 range *)
| IndexError.         (* index into an array that is too short *)

Inductive result (A : Type) : Type :=
| Ok (a : A)
| Raise (e : PyError).

Arguments Ok {A} a.
Arguments Raise {A} e.

Definition bind {A B : Type} (c : result A) (k : A -> result B) : result B :=
  match c with
  | Ok a => k a
  | Raise e => Raise e
  end.

Definition fmap {A B : Type} (f : A -> B) (c : result A) : result B :=
  bind c (fun a => Ok (f a)).

Declare Scope py_scope.
Delimit Scope py_scope with py.
Notation "x <- c ;; k" := (bind c (fun x => k))
  (at level 100, c at next level, right associativity) : py_scope.
Open Scope py_scope.

(** ** Numbers

    The operations the notebook applies to scalars and array elements.
    [is_zero] is the test [x == 0.0] behind Python's [ZeroDivisionError];
    [pow2_overflows] tells when [x ** 2] raises [OverflowError] and [square]
    is its value when it does not. *)

Class Num (F : Type) : Type := {
  zero : F;
  two : F;                     (* the literal [2] *)
  add : F -> F -> F;
  sub : F -> F -> F;
  mul : F -> F -> F;
  div : F -> F -> F;
  is_zero : F -> bool;
  square : F -> F;
  pow2_overflows : F -> bool
}.

(** The literal [0.5] of the time-step cell.  It is a [float], and so is its
    product with a number of any type: only binary64 has it. *)
Class Half (F : Type) : Type := { half : F }.

Declare Scope num_scope.
Delimit Scope num_scope with num.
Infix "+" := add : num_scope.
Infix "-" := sub : num_scope.
Infix "*" := mul : num_scope.
Infix "/" := div : num_scope.

(** *** The power [x ** 2] of a [float]

    CPython's [float_pow] answers the special bases itself and leaves the
    rest to the C library:
<<
    if (Py_IS_NAN(iv)) return PyFloat_FromDouble(iv);
    if (Py_IS_INFINITY(iv)) ... return PyFloat_FromDouble(fabs(iv));
    if (iv == 0.0) ... return PyFloat_FromDouble(0.0);
    if (iv < 0.0) ... iv = -iv;
    if (iv == 1.0) return PyFloat_FromDouble(1.0);
    errno = 0;
    ix = pow(iv, iw);
    _Py_ADJUST_ERANGE1(ix);
    if (errno != 0) ... PyExc_OverflowError ...
    return PyFloat_FromDouble(ix);
>>
    (the branches an exponent of [2.0] cannot take are left out).  The C
    library is not part of the notebook: its [pow] at exponent [2.0], and
    whether that call reports a range error, are parameters of the binary64
    arithmetic. *)

Record Libm : Type := {
  c_pow2 : float -> float;          (* [pow(x, 2.0)] *)
  c_pow2_erange : float -> bool     (* [errno == ERANGE] after that call *)
}.

(** A C library whose [pow] is correctly rounded, reporting a range error
    where the result overflows or underflows to zero. *)
Definition correctly_rounded : Libm := {|
  c_pow2 := fun x => PrimFloat.mul x x;
  c_pow2_erange := fun x =>
    PrimFloat.is_infinity (PrimFloat.mul x x)
    || PrimFloat.eqb (PrimFloat.mul x x) 0%float
|}.

(** The bases [float_pow] answers without calling [pow]. *)
Definition float_pow2_special (x : float) : option float :=
  if PrimFloat.is_nan x then Some x
  else if PrimFloat.is_infinity x then Some (PrimFloat.abs x)
  else if PrimFloat.eqb x 0%float then Some 0%float
  else if PrimFloat.eqb (PrimFloat.abs x) 1%float then Some 1%float
  else None.

Definition float_square (L : Libm) (x : float) : float :=
  match float_pow2_special x with
  | Some y => y
  | None => c_pow2 L (PrimFloat.abs x)
  end.

(** [_Py_ADJUST_ERANGE1]: an infinite result is a range error also when the
    library reported none; a reported range error with result zero (an
    underflow) is none. *)
Definition float_pow2_raises (L : Libm) (x : float) : bool :=
  match float_pow2_special x with
  | Some _ => false
  | None =>
      let ix := c_pow2 L (PrimFloat.abs x) in
      if c_pow2_erange L (PrimFloat.abs x)
      then negb (PrimFloat.eqb ix 0%float)
      else PrimFloat.is_infinity ix
  end.

(** binary64: IEEE 754 operations, rounding to nearest even.  The notebook's
    [int]s ([D = 100], the literal [2], [C_left = 500]) reach the arithmetic
    converted to [float]. *)
Definition binary64 (L : Libm) : Num float := {|
  zero := 0%float;
  two := 2%float;
  add := PrimFloat.add;
  sub := PrimFloat.sub;
  mul := PrimFloat.mul;
  div := PrimFloat.div;
  is_zero := fun x => PrimFloat.eqb x 0%float;
  square := float_square L;
  pow2_overflows := float_pow2_raises L
|}.

#[export] Instance float_half : Half float := {| half := 0.5%float |}.

(** The rational number a finite [float] stands for. *)
Definition rational (x : float) : option Q :=
  match Prim2SF x with
  | S754_zero _ => Some 0%Q
  | S754_finite s m e =>
      Some ((if s then inject_Z (Z.neg m) else inject_Z (Z.pos m))
            * Qpower 2 e)%Q
  | S754_infinity _ | S754_nan => None
  end.

(** Exact rationals: the real arithmetic the scheme is written in, and what
    the loop cell computes on [Fraction]s.  Nothing rounds and nothing
    overflows; dividing by zero still raises. *)
#[export] Instance exact : Num Qc := {|
  zero := 0%Qc;
  two := Q2Qc 2;
  add := Qcplus;
  sub := Qcminus;
  mul := Qcmult;
  div := Qcdiv;
  is_zero := fun x => Qeq_bool x 0;
  square := fun x => Qcmult x x;
  pow2_overflows := fun _ => false
|}.

(** ** Arrays (NumPy) and the [for] statement *)

(** Elementwise binary operation on arrays of one shape. *)
Fixpoint map2 {A B C : Type} (f : A -> B -> C) (a : list A) (b : list B)
  : list C :=
  match a, b with
  | x :: a', y :: b' => f x y :: map2 f a' b'
  | _, _ => []
  end.

(** [np.roll(a, shift)]: the element at index [i] moves to index
    [(i + shift) mod n]. *)
Definition roll {A : Type} (a : list A) (shift : Z) : list A :=
  match a with
  | [] => []
  | _ :: _ =>
      let n := Z.of_nat (length a) in
      let cut := Z.to_nat (n - shift mod n) in
      skipn cut a ++ firstn cut a
  end.

Fixpoint update {A : Type} (a : list A) (j : nat) (v : A) : list A :=
  match a, j with
  | [], _ => []
  | _ :: a', O => v :: a'
  | x :: a', S j' => x :: update a' j' v
  end.

(** [a[i] = v], a negative [i] counting from the end. *)
Definition setitem {A : Type} (a : list A) (i : Z) (v : A)
  : result (list A) :=
  let n := Z.of_nat (length a) in
  let j := if (i <? 0)%Z then (i + n)%Z else i in
  if ((0 <=? j) && (j <? n))%Z then Ok (update a (Z.to_nat j) v)
  else Raise IndexError.

(** [range(start, stop)] *)
Definition range (start stop : Z) : list Z :=
  map (fun i => (start + Z.of_nat i)%Z) (seq 0 (Z.to_nat (stop - start))).

(** [for t in its: s = body(t, s)] *)
Fixpoint for_each {St : Type} (its : list Z) (body : Z -> St -> result St)
  (s : St) : result St :=
  match its with
  | [] => Ok s
  | t :: its' => s' <- body t s ;; for_each its' body s'
  end.

Section Integrator.

Context {F : Type} {N : Num F}.
Open Scope num_scope.

(** ** Scalar expressions (Python [float]) *)

(** [a / b] *)
Definition truediv (a b : F) : result F :=
  if is_zero b then Raise ZeroDivisionError else Ok (a / b).

(** [x ** 2] *)
Definition pow2 (x : F) : result F :=
  if pow2_overflows x then Raise OverflowError else Ok (square x).

(** [D * dt / dx**2] *)
Definition coefficient (D dt dx : F) : result F :=
  let p := D * dt in
  s <- pow2 dx ;;
  truediv p s.

(** [np.roll(C, -1) -2*C + np.roll(C,1)] *)
Definition laplacian (C : list F) : list F :=
  map2 add (map2 sub (roll C (-1)) (map (mul two) C)) (roll C 1).

(** The array [C += ...] leaves behind, before the boundaries are reset. *)
Definition updated (k : F) (C : list F) : list F :=
  map2 add C (map (mul k) (laplacian C)).

(** ** The loop body *)

Definition step (D dt dx C_left C_right : F) (C : list F)
  : result (list F) :=
  k <- coefficient D dt dx ;;
  let C1 := updated k C in
  C2 <- setitem C1 0 C_left ;;
  setitem C2 (-1) C_right.

(** ** The loop *)

Definition loop (D dt dx : F) (nt : Z) (C_left C_right : F) (C : list F)
  : result (list F) :=
  for_each (range 0 nt) (fun _ C => step D dt dx C_left C_right C) C.

(** ** The time step *)

Context {H : Half F}.

(** [dt = 0.5 * (dx**2/D)] *)
Definition select_dt (dx D : F) : result F :=
  s <- pow2 dx ;;
  q <- truediv s D ;;
  Ok (half * q).

(** The run, from the initial field, [D], [dx], [nt] and the two boundary
    values: the time-step cell, then the loop cell. *)
Definition simulate (C : list F) (D dx : F) (nt : Z) (C_left C_right : F)
  : result (list F) :=
  dt <- select_dt dx D ;;
  loop D dt dx nt C_left C_right C.

End Integrator.

(** ** The notebook's variables *)

Section NotebookCells.

Context {F : Type} {N : Num F}.

(** The module-level names of the notebook; [t] is unbound until the loop
    binds it. *)
Record Env : Type := {
  v_D : F;
  v_Lx : F;
  v_dx : F;
  v_x : list F;
  v_C : list F;
  v_C_left : F;
  v_C_right : F;
  v_time : Z;
  v_nt : Z;
  v_dt : F;
  v_t : option Z
}.

Definition set_C (env : Env) (C : list F) : Env :=
  {| v_D := v_D env; v_Lx := v_Lx env; v_dx := v_dx env; v_x := v_x env;
     v_C := C;
     v_C_left := v_C_left env; v_C_right := v_C_right env;
     v_time := v_time env; v_nt := v_nt env; v_dt := v_dt env;
     v_t := v_t env |}.

Definition set_t (env : Env) (t : Z) : Env :=
  {| v_D := v_D env; v_Lx := v_Lx env; v_dx := v_dx env; v_x := v_x env;
     v_C := v_C env;
     v_C_left := v_C_left env; v_C_right := v_C_right env;
     v_time := v_time env; v_nt := v_nt env; v_dt := v_dt env;
     v_t := Some t |}.

(** [C+= D * dt / dx**2 * (np.roll(C, -1) -2*C + np.roll(C,1))]: the right
    side is a new array, added to [C] in place once it is complete. *)
Definition exec_iadd (env : Env) : result Env :=
  k <- coefficient (v_D env) (v_dt env) (v_dx env) ;;
  Ok (set_C env (updated k (v_C env))).

(** [C[0] = C_left] *)
Definition exec_set_left (env : Env) : result Env :=
  C' <- setitem (v_C env) 0 (v_C_left env) ;; Ok (set_C env C').

(** [C[-1] = C_right] *)
Definition exec_set_right (env : Env) : result Env :=
  C' <- setitem (v_C env) (-1) (v_C_right env) ;; Ok (set_C env C').

Definition exec_body (env : Env) : result Env :=
  env1 <- exec_iadd env ;;
  env2 <- exec_set_left env1 ;;
  exec_set_right env2.

(** The loop cell. *)
Definition exec_loop (env : Env) : result Env :=
  for_each (range 0 (v_nt env)) (fun t env => exec_body (set_t env t)) env.

(** What a run reads: the initial field, [D], [dx], [dt], [nt] and the two
    boundary values. *)
Definition same_inputs (e1 e2 : Env) : Prop :=
  v_C e1 = v_C e2 /\ v_D e1 = v_D e2 /\ v_dx e1 = v_dx e2 /\
  v_dt e1 = v_dt e2 /\ v_nt e1 = v_nt e2 /\
  v_C_left e1 = v_C_left e2 /\ v_C_right e1 = v_C_right e2.

Definition step_of (env : Env) : list F -> result (list F) :=
  step (v_D env) (v_dt env) (v_dx env) (v_C_left env) (v_C_right env).

End NotebookCells.

Arguments Env F : clear implicits.

(** ** The design's words

    Definitions that follow the design document rather than the notebook, to
    compare the notebook with: the update restricted to the interior indices
    (4.2), the step applied a number of times in sequence (4.3), symmetry
    about the midpoint (8.4). *)

Section Design.

Context {F : Type} {N : Num F}.
Open Scope num_scope.



(** [f] applied [n] times in sequence, each application taking the result of
    the one before; the first exception ends the sequence. *)
Fixpoint apply_n {St : Type} (n : nat) (f : St -> result St) (s : St)
  : result St :=
  match n with
  | O => Ok s
  | S m => s' <- f s ;; apply_n m f s'
  end.

(** [field[i] == field[n-1-i]] for all [i]. *)
Definition symmetric (C : list F) : Prop :=
  forall i : nat, (i < length C)%nat ->
    nth i C zero = nth (length C - 1 - i) C zero.

(** At every interior index the stencil sum, which the notebook groups as
    [(C[i+1] - 2*C[i]) + C[i-1]], has the same value with the two neighbours
    exchanged.  Arithmetic that rounds can tell the two groupings apart. *)
Definition balanced (C : list F) : Prop :=
  forall i : nat, (1 <= i)%nat -> (i + 1 < length C)%nat ->
    (nth (i + 1) C zero - two * nth i C zero) + nth (i - 1) C zero
    = (nth (i - 1) C zero - two * nth i C zero) + nth (i + 1) C zero.

End Design.

(** ** Predicates on stores and fields *)

(** The variables other than [C] and [t] are the same in two stores. *)
Definition unchanged {F : Type} (e1 e2 : Env F) : Prop :=
  v_D e2 = v_D e1 /\ v_Lx e2 = v_Lx e1 /\ v_dx e2 = v_dx e1 /\
  v_x e2 = v_x e1 /\ v_C_left e2 = v_C_left e1 /\
  v_C_right e2 = v_C_right e1 /\ v_time e2 = v_time e1 /\
  v_nt e2 = v_nt e1 /\ v_dt e2 = v_dt e1.

(** Every entry lies in [[lo, hi]]. *)
Definition within (lo hi : Qc) (C : list Qc) : Prop :=
  forall i : nat, (i < length C)%nat ->
    (lo <= nth i C 0 /\ nth i C 0 <= hi)%Qc.

(** No entry exceeds the one before it. *)
Definition nonincreasing (C : list Qc) : Prop :=
  forall i : nat, (i + 1 < length C)%nat ->
    (nth (i + 1) C 0 <= nth i C 0)%Qc.

(** A non-increasing field of at least two entries that starts no higher
    than [C_left] and ends no lower than [C_right]. *)
Definition descends (C_left C_right : Qc) (C : list Qc) : Prop :=
  nonincreasing C /\ (2 <= length C)%nat /\
  (nth 0 C 0 <= C_left)%Qc /\ (C_right <= nth (length C - 1) C 0)%Qc.

(** The sum of the entries. *)
Definition total (C : list Qc) : Qc := fold_right Qcplus 0%Qc C.

(** The straight line of [n] entries from [C_left] to [C_right]. *)
Definition line (C_left C_right : Qc) (n : nat) : list Qc :=
  map (fun i : nat =>
         (C_left
          + Q2Qc (inject_Z (Z.of_nat i))
            * ((C_right - C_left) / Q2Qc (inject_Z (Z.of_nat (n - 1)))))%Qc)
      (seq 0 n).

(** Every entry of [C] is within [M] of the entry of [L] at its index. *)
Definition near (M : Qc) (L C : list Qc) : Prop :=
  forall i : nat, (i < length C)%nat ->
    (- M <= nth i C 0 - nth i L 0 /\ nth i C 0 - nth i L 0 <= M)%Qc.

(** The second difference vanishes at every interior index. *)
Definition harmonic (C : list Qc) : Prop :=
  forall i : nat, (1 <= i)%nat -> (i + 1 < length C)%nat ->
    (nth (i + 1) C 0 - Q2Qc 2 * nth i C 0 + nth (i - 1) C 0 = 0)%Qc.

(** * Properties *)

(** Two binary64 values that Python's [==] tells apart are different. *)
Ltac b64_differ :=
  let H := fresh in
  intros H;
  match type of H with
  | ?x = ?y => apply (f_equal (fun z : float => PrimFloat.eqb z y)) in H
  end;
  vm_compute in H; discriminate H.

(** ** Arrays *)

Section Arrays.

Context {A : Type}.

Lemma map2_length {B C : Type} (f : A -> B -> C) (a : list A) (b : list B) :
  length (map2 f a b) = Nat.min (length a) (length b).
Proof.
  revert b; induction a as [|x a IH]; intros [|y b]; simpl; auto.
Qed.

Lemma nth_map2 {B C : Type} (f : A -> B -> C) (a : list A) (b : list B)
  (i : nat) (da : A) (db : B) (d : C) :
  (i < length a)%nat -> (i < length b)%nat ->
  nth i (map2 f a b) d = f (nth i a da) (nth i b db).
Proof.
  revert b i; induction a as [|x a IH]; intros [|y b] [|i]; simpl;
    intros Ha Hb; try lia; auto.
  apply IH; lia.
Qed.

Lemma roll_length (a : list A) (shift : Z) : length (roll a shift) = length a.
Proof.
  destruct a as [|x a]; [reflexivity|].
  unfold roll. rewrite length_app, Nat.add_comm, <- length_app.
  now rewrite firstn_skipn.
Qed.

(** Entry [i] of [np.roll(a, shift)] is entry [(i - shift) mod n] of [a]. *)
Lemma nth_roll (a : list A) (shift : Z) (i : nat) (d : A) :
  (i < length a)%nat ->
  nth i (roll a shift) d
  = nth (Z.to_nat ((Z.of_nat i - shift) mod Z.of_nat (length a))) a d.
Proof.
  intros Hi. destruct a as [|x a]; [simpl in Hi; lia|].
  unfold roll.
  set (l := x :: a) in *. set (n := Z.of_nat (length l)).
  assert (Hn : (0 < n)%Z) by (unfold n; lia).
  rewrite <- Zminus_mod_idemp_r.
  pose proof (Z.mod_pos_bound shift n Hn) as Hm.
  set (m := (shift mod n)%Z) in *.
  assert (Hcut : (Z.to_nat (n - m) <= length l)%nat) by (unfold n; lia).
  assert (Hsk : length (skipn (Z.to_nat (n - m)) l) = Z.to_nat m)
    by (rewrite length_skipn; unfold n in *; lia).
  destruct (Z_lt_le_dec (Z.of_nat i) m) as [Hlt|Hge].
  - rewrite app_nth1 by lia.
    rewrite nth_skipn. f_equal.
    assert (E : ((Z.of_nat i - m) mod n = Z.of_nat i - m + n)%Z).
    { symmetry. apply (Z.mod_unique _ _ (-1)%Z); lia. }
    rewrite E. lia.
  - rewrite app_nth2 by lia. rewrite Hsk.
    rewrite nth_firstn.
    assert (E : ((Z.of_nat i - m) mod n = Z.of_nat i - m)%Z).
    { apply Z.mod_small. unfold n in *. lia. }
    rewrite E.
    replace (Z.to_nat (Z.of_nat i - m)) with (i - Z.to_nat m)%nat by lia.
    destruct (Nat.ltb_spec (i - Z.to_nat m) (Z.to_nat (n - m))) as [_|H];
      [reflexivity|unfold n in *; lia].
Qed.

Lemma update_length (a : list A) (j : nat) (v : A) :
  length (update a j v) = length a.
Proof.
  revert j; induction a as [|x a IH]; intros [|j]; simpl; auto.
Qed.

Lemma nth_update_eq (a : list A) (j : nat) (v d : A) :
  (j < length a)%nat -> nth j (update a j v) d = v.
Proof.
  revert j; induction a as [|x a IH]; intros [|j]; simpl; intros H;
    try lia; auto.
  apply IH; lia.
Qed.

Lemma nth_update_neq (a : list A) (i j : nat) (v d : A) :
  i <> j -> nth i (update a j v) d = nth i a d.
Proof.
  revert i j; induction a as [|x a IH]; intros [|i] [|j]; simpl; intros H;
    try congruence; auto.
Qed.

Lemma setitem_first (a : list A) (v : A) :
  a <> [] -> setitem a 0 v = Ok (update a 0 v).
Proof.
  destruct a as [|x a]; [congruence|]. intros _. unfold setitem.
  cbn [length Z.ltb Z.compare].
  destruct (Z.ltb_spec 0 (Z.of_nat (S (length a)))); [reflexivity|lia].
Qed.

Lemma setitem_last (a : list A) (v : A) :
  a <> [] -> setitem a (-1) v = Ok (update a (length a - 1) v).
Proof.
  destruct a as [|x a]; [congruence|]. intros _. unfold setitem.
  change (-1 <? 0)%Z with true. cbv iota.
  destruct (Z.leb_spec 0 (-1 + Z.of_nat (length (x :: a)))) as [_|H];
    [|simpl length in H; lia].
  destruct (Z.ltb_spec (-1 + Z.of_nat (length (x :: a)))
              (Z.of_nat (length (x :: a)))) as [_|H]; [|lia].
  cbn [andb]. f_equal. f_equal. simpl length. lia.
Qed.

Lemma setitem_empty (i : Z) (v : A) : setitem [] i v = Raise IndexError.
Proof.
  unfold setitem. simpl length. change (Z.of_nat 0) with 0%Z.
  set (j := if (i <? 0)%Z then (i + 0)%Z else i).
  destruct ((0 <=? j) && (j <? 0))%Z eqn:E; [|reflexivity].
  apply andb_prop in E as [E1 E2].
  apply Z.leb_le in E1. apply Z.ltb_lt in E2. lia.
Qed.

End Arrays.

(** ** The loop body, entry by entry *)

Section StepFacts.

Context {F : Type} {N : Num F}.
Open Scope num_scope.

Variables D dt dx C_left C_right : F.

Lemma laplacian_length (C : list F) : length (laplacian C) = length C.
Proof.
  unfold laplacian.
  rewrite !map2_length, !roll_length, length_map. lia.
Qed.

(** At an interior index the rotations deliver the two array neighbours. *)
Lemma nth_laplacian_interior (C : list F) (i : nat) :
  (1 <= i)%nat -> (i + 1 < length C)%nat ->
  nth i (laplacian C) zero
  = (nth (i + 1) C zero - two * nth i C zero) + nth (i - 1) C zero.
Proof.
  intros H1 H2. unfold laplacian.
  rewrite (nth_map2 add _ _ _ zero zero zero);
    [|rewrite map2_length, roll_length, length_map; lia
     |rewrite roll_length; lia].
  rewrite (nth_map2 sub _ _ _ zero zero zero);
    [|rewrite roll_length; lia|rewrite length_map; lia].
  rewrite !nth_roll by lia.
  replace (nth i (map (mul two) C) zero) with (two * nth i C zero)
    by (rewrite (nth_indep (map (mul two) C) zero (two * zero))
          by (rewrite length_map; lia);
        now rewrite map_nth).
  rewrite !Z.mod_small by lia.
  now replace (Z.to_nat (Z.of_nat i - -1)) with (i + 1)%nat by lia;
    replace (Z.to_nat (Z.of_nat i - 1)) with (i - 1)%nat by lia.
Qed.

Lemma updated_length (k : F) (C : list F) : length (updated k C) = length C.
Proof.
  unfold updated. rewrite map2_length, length_map, laplacian_length. lia.
Qed.

Lemma nth_updated_interior (k : F) (C : list F) (i : nat) :
  (1 <= i)%nat -> (i + 1 < length C)%nat ->
  nth i (updated k C) zero
  = nth i C zero
    + k * ((nth (i + 1) C zero - two * nth i C zero) + nth (i - 1) C zero).
Proof.
  intros H1 H2. unfold updated.
  rewrite (nth_map2 add _ _ _ zero zero zero);
    [|lia|rewrite length_map, laplacian_length; lia].
  rewrite (nth_indep (map (mul k) (laplacian C)) zero (k * zero))
    by (rewrite length_map, laplacian_length; lia).
  now rewrite map_nth, nth_laplacian_interior.
Qed.

Lemma step_unfold (C : list F) :
  step D dt dx C_left C_right C
  = (k <- coefficient D dt dx ;;
     C2 <- setitem (updated k C) 0 C_left ;;
     setitem C2 (-1) C_right).
Proof. reflexivity. Qed.

(** A step that gets its coefficient succeeds on every non-empty array. *)
Lemma step_ok (k : F) (C : list F) :
  coefficient D dt dx = Ok k -> C <> [] ->
  step D dt dx C_left C_right C
  = Ok (update (update (updated k C) 0 C_left) (length C - 1) C_right).
Proof.
  intros Hk HC. rewrite step_unfold, Hk. cbn [bind].
  assert (Hu : updated k C <> []).
  { intros E. apply (f_equal (@length F)) in E.
    rewrite updated_length in E. destruct C; [congruence|discriminate]. }
  rewrite setitem_first by exact Hu. cbn [bind].
  rewrite setitem_last.
  - now rewrite update_length, updated_length.
  - intros E. apply (f_equal (@length F)) in E.
    rewrite update_length, updated_length in E.
    destruct C; [congruence|discriminate].
Qed.

Lemma step_raise (e : PyError) (C : list F) :
  coefficient D dt dx = Raise e -> step D dt dx C_left C_right C = Raise e.
Proof. intros Hk. now rewrite step_unfold, Hk. Qed.

Lemma step_empty (k : F) :
  coefficient D dt dx = Ok k ->
  step D dt dx C_left C_right [] = Raise IndexError.
Proof. intros Hk. now rewrite step_unfold, Hk. Qed.

Lemma step_length (C C' : list F) :
  step D dt dx C_left C_right C = Ok C' -> length C' = length C.
Proof.
  destruct (coefficient D dt dx) as [k|e] eqn:Hk;
    [|rewrite (step_raise e C Hk); discriminate].
  destruct C as [|c C]; [rewrite (step_empty k Hk); discriminate|].
  rewrite (step_ok k (c :: C) Hk) by discriminate.
  intros [= <-]. now rewrite !update_length, updated_length.
Qed.

End StepFacts.

(** ** Exact arithmetic *)

Section Exact.

Open Scope Qc_scope.

Lemma exact_is_zero (x : Qc) : is_zero x = true <-> x = 0.
Proof.
  cbn. rewrite Qeq_bool_iff. split.
  - intros H. now apply Qc_is_canon.
  - now intros ->.
Qed.

Lemma exact_nonzero (x : Qc) : x <> 0 -> is_zero x = false.
Proof.
  intros H. destruct (is_zero x) eqn:E; [|reflexivity].
  now apply exact_is_zero in E.
Qed.

Lemma exact_pos_nonzero (x : Qc) : 0 < x -> x <> 0.
Proof. intros H ->. exact (Qclt_not_eq _ _ H eq_refl). Qed.

Lemma exact_pow2 (x : Qc) : pow2 x = Ok (x ^ 2).
Proof. cbn. f_equal. ring. Qed.

(** With exact numbers [D * dt / dx**2] has a value as soon as [dx] is
    not zero. *)
Lemma coefficient_exact (D dt dx : Qc) :
  dx <> 0 -> coefficient D dt dx = Ok (D * dt / dx ^ 2).
Proof.
  intros H. unfold coefficient. rewrite exact_pow2. cbn [bind].
  unfold truediv. rewrite exact_nonzero; [reflexivity|].
  replace (dx ^ 2) with (dx * dx) by (cbn [Qcpower]; ring).
  intros E. now destruct (Qcmult_integral _ _ E).
Qed.

End Exact.

(** ** binary64 *)

(** A [float] above zero is not zero: no positive divisor raises
    [ZeroDivisionError]. *)
Lemma positive_nonzero (x : float) :
  PrimFloat.ltb 0 x = true -> PrimFloat.eqb x 0 = false.
Proof.
  rewrite ltb_spec, eqb_spec.
  change (Prim2SF 0%float) with (S754_zero false).
  unfold SFltb, SFeqb.
  destruct (Prim2SF x) as [s|s| |s m e]; cbn; try discriminate;
    destruct s; (discriminate || reflexivity).
Qed.

(** Every other base goes to the C library. *)
Lemma library_base (L : Libm) (x : float) :
  float_pow2_special x = None ->
  pow2 (N := binary64 L) x
  = if (if c_pow2_erange L (PrimFloat.abs x)
        then negb (PrimFloat.eqb (c_pow2 L (PrimFloat.abs x)) 0)
        else PrimFloat.is_infinity (c_pow2 L (PrimFloat.abs x)))
    then Raise OverflowError
    else Ok (c_pow2 L (PrimFloat.abs x)).
Proof.
  intros E. unfold pow2. cbn [pow2_overflows square binary64].
  unfold float_pow2_raises, float_square. now rewrite E.
Qed.

(** ** One step at the interior indices *)

Section StepEntries.

Context {F : Type} {N : Num F}.
Open Scope num_scope.

Variables (D dt dx C_left C_right k : F) (C : list F).
Hypothesis Hk : coefficient D dt dx = Ok k.

Lemma step_left (C' : list F) :
  (2 <= length C)%nat ->
  step D dt dx C_left C_right C = Ok C' -> nth 0 C' zero = C_left.
Proof.
  intros Hn. rewrite (step_ok D dt dx C_left C_right k C Hk)
    by (destruct C; [simpl in Hn; lia|discriminate]).
  intros [= <-]. rewrite nth_update_neq by lia.
  apply nth_update_eq. rewrite updated_length. lia.
Qed.

Lemma step_right (C' : list F) :
  C <> [] ->
  step D dt dx C_left C_right C = Ok C' ->
  nth (length C - 1) C' zero = C_right.
Proof.
  intros Hn. rewrite (step_ok D dt dx C_left C_right k C Hk) by exact Hn.
  intros [= <-]. apply nth_update_eq.
  rewrite update_length, updated_length.
  destruct C; [congruence|simpl; lia].
Qed.

Lemma step_interior (C' : list F) (i : nat) :
  (1 <= i <= length C - 2)%nat ->
  step D dt dx C_left C_right C = Ok C' ->
  nth i C' zero
  = nth i C zero
    + k * ((nth (i + 1) C zero - two * nth i C zero) + nth (i - 1) C zero).
Proof.
  intros Hi. rewrite (step_ok D dt dx C_left C_right k C Hk)
    by (destruct C; [simpl in Hi; lia|discriminate]).
  intros [= <-]. rewrite !nth_update_neq by lia.
  apply nth_updated_interior; lia.
Qed.

End StepEntries.

(** What [D * dt / dx**2] evaluates to. *)
Lemma coefficient_cases {F : Type} {N : Num F} (D dt dx : F) :
  coefficient D dt dx
  = match pow2 dx with
    | Raise e => Raise e
    | Ok s =>
        if is_zero s then Raise ZeroDivisionError else Ok (D * dt / s)%num
    end.
Proof. unfold coefficient, truediv. now destruct (pow2 dx). Qed.

(** C1, as stated, fails in binary64: positive [D], [dt] and [dx] do not
    give [D*dt/dx**2] a value.  For [dx = 1e-200] the square [dx**2]
    underflows to zero (here with a correctly rounded [pow]), the division
    raises [ZeroDivisionError] and the step produces no field. *)
Lemma positive_inputs_step_raises :
  (2 <= length [10; 20; 5; 0; 8]%float)%nat /\
  PrimFloat.ltb 0 1 = true /\
  PrimFloat.ltb 0 0.5 = true /\
  PrimFloat.ltb 0 0x1.87e92154ef7acp-665 = true /\
  step (N := binary64 correctly_rounded)
       1%float 0.5%float 0x1.87e92154ef7acp-665%float 10%float 8%float
       [10; 20; 5; 0; 8]%float
  = Raise ZeroDivisionError.
Proof. repeat split; (simpl; lia) || (vm_compute; reflexivity). Qed.

(** C1, amended.  [D*dt/dx**2] has a value [k] exactly when [dx**2] does
    not raise and is not zero; the step raises what that expression raises.
    Once it has a value, one step on a field of at least two entries returns
    a field whose entry at every interior index [i] in [1, n-2] is
    [C[i] + k * ((C[i+1] - 2*C[i]) + C[i-1])], computed in the arithmetic of
    the number type with all entries on the right read from the field before
    the step.  With exact numbers positive [D], [dt], [dx] give [k] the
    value [D*dt/dx^2].  In binary64, whatever the C library, one step on
    [[10, 20, 5, 0, 8]] with [D=1], [dx=1], [dt=0.5] and boundary values
    [10] and [8] is [[10, 7.5, 10, 6.5, 8]]. *)
Theorem step_interior_stencil :
  (forall (F : Type) (N : Num F) (D dt dx C_left C_right k : F) (C : list F),
      (2 <= length C)%nat ->
      coefficient D dt dx = Ok k ->
      exists C' : list F,
        step D dt dx C_left C_right C = Ok C' /\
        forall i : nat, (1 <= i <= length C - 2)%nat ->
          nth i C' zero
          = (nth i C zero
             + k * ((nth (i + 1) C zero - two * nth i C zero)
                    + nth (i - 1) C zero))%num)
  /\ (forall (F : Type) (N : Num F) (D dt dx C_left C_right : F) (C : list F),
      coefficient D dt dx
      = match pow2 dx with
        | Raise e => Raise e
        | Ok s =>
            if is_zero s then Raise ZeroDivisionError
            else Ok (D * dt / s)%num
        end /\
      forall e : PyError,
        coefficient D dt dx = Raise e ->
        step D dt dx C_left C_right C = Raise e)
  /\ (forall (D dt dx C_left C_right : Qc) (C : list Qc),
      (2 <= length C)%nat ->
      (0 < D)%Qc -> (0 < dt)%Qc -> (0 < dx)%Qc ->
      exists C' : list Qc,
        step D dt dx C_left C_right C = Ok C' /\
        forall i : nat, (1 <= i <= length C - 2)%nat ->
          nth i C' 0%Qc
          = (nth i C 0
             + (D * dt / dx ^ 2)
               * (nth (i + 1) C 0 - Q2Qc 2 * nth i C 0 + nth (i - 1) C 0))%Qc)
  /\ (forall L : Libm,
      step (N := binary64 L) 1%float 0.5%float 1%float 10%float 8%float
           [10; 20; 5; 0; 8]%float
      = Ok [10; 7.5; 10; 6.5; 8]%float).
Proof.
  split; [|split; [|split]].
  - intros F N D dt dx C_left C_right k C Hn Hk.
    destruct (step D dt dx C_left C_right C) as [C'|e] eqn:E.
    + exists C'. split; [reflexivity|]. intros i Hi.
      now apply (step_interior D dt dx C_left C_right k C Hk).
    + rewrite (step_ok D dt dx C_left C_right k C Hk) in E;
        [discriminate|destruct C; [simpl in Hn; lia|discriminate]].
  - intros F N D dt dx C_left C_right C.
    split; [apply coefficient_cases|].
    intros e He. now apply step_raise.
  - intros D dt dx C_left C_right C Hn HD Hdt Hdx.
    assert (Hk : coefficient D dt dx = Ok (D * dt / dx ^ 2)%Qc)
      by now apply coefficient_exact, exact_pos_nonzero.
    eexists. split.
    + apply (step_ok D dt dx C_left C_right _ C Hk).
      destruct C; [simpl in Hn; lia|discriminate].
    + intros i Hi.
      apply (step_interior D dt dx C_left C_right _ C Hk _ i Hi).
      apply (step_ok D dt dx C_left C_right _ C Hk).
      destruct C; [simpl in Hn; lia|discriminate].
  - intros L. vm_compute. reflexivity.
Qed.

Lemma step_interior_stencil_witness :
  exists C' : list float,
    step (N := binary64 correctly_rounded)
         1%float 0.5%float 1%float 10%float 8%float [10; 20; 5; 0; 8]%float
    = Ok C' /\
    forall i : nat, (1 <= i <= length [10; 20; 5; 0; 8]%float - 2)%nat ->
      nth i C' 0%float
      = (nth i [10; 20; 5; 0; 8] 0
         + 0.5 * ((nth (i + 1) [10; 20; 5; 0; 8] 0
                   - 2 * nth i [10; 20; 5; 0; 8] 0)
                  + nth (i - 1) [10; 20; 5; 0; 8] 0))%float.
Proof.
  apply (proj1 step_interior_stencil float (binary64 correctly_rounded)
           1%float 0.5%float 1%float 10%float 8%float 0.5%float
           [10; 20; 5; 0; 8]%float).
  - simpl; lia.
  - vm_compute. reflexivity.
Defined.

(** ** The time step *)

(** What [dt = 0.5 * (dx**2/D)] evaluates to. *)
Lemma select_dt_cases {F : Type} {N : Num F} {H : Half F} (dx D : F) :
  select_dt dx D
  = match pow2 dx with
    | Raise e => Raise e
    | Ok s =>
        if is_zero D then Raise ZeroDivisionError
        else Ok (half * (s / D))%num
    end.
Proof.
  unfold select_dt, truediv. destruct (pow2 dx) as [s|e]; cbn [bind];
    [|reflexivity].
  now destruct (is_zero D).
Qed.

(** C5, as stated, fails in binary64.  [dx = 1e200] and [D = 1] are
    positive, the square [dx**2] is out of range (here with a correctly
    rounded [pow]) and the cell raises [OverflowError] instead of returning a
    time step.  And where it returns it rounds: for [dx = 1], [D = 3] it
    returns the float written [0.16666666666666666], which is not the
    number [0.5 * 1^2 / 3]. *)
Lemma select_dt_raises_or_rounds :
  (PrimFloat.ltb 0 0x1.4e718d7d7625ap+664 = true /\
   PrimFloat.ltb 0 1 = true /\
   select_dt (N := binary64 correctly_rounded)
             0x1.4e718d7d7625ap+664%float 1%float
   = Raise OverflowError) /\
  (PrimFloat.ltb 0 1 = true /\
   PrimFloat.ltb 0 3 = true /\
   select_dt (N := binary64 correctly_rounded) 1%float 3%float
   = Ok 0x1.5555555555555p-3%float /\
   exists q : Q,
     rational 0x1.5555555555555p-3%float = Some q /\
     ~ (q == (1 # 2) * 1 ^ 2 / 3)%Q).
Proof.
  split; [repeat split; vm_compute; reflexivity|].
  split; [reflexivity|]. split; [reflexivity|].
  split; [vm_compute; reflexivity|].
  eexists. split; [vm_compute; reflexivity|].
  unfold Qeq. cbn. lia.
Qed.

(** C5, amended.  The cell raises what [dx**2] raises, raises
    [ZeroDivisionError] when [D == 0], and otherwise returns
    [0.5 * (s / D)], [s] the value of [dx**2], the quotient and the product
    computed in the arithmetic of the number type.  In binary64, on any C
    library, a positive [D] never raises [ZeroDivisionError]: the cell
    raises [OverflowError] when [dx**2] does and returns the rounded
    [0.5 * (dx**2 / D)] otherwise; the notebook's [dx = 0.5], [D = 100]
    give the float written [0.00125] wherever [pow(0.5, 2.0)] is [0.25]
    with no range error. *)
Theorem select_dt_formula :
  (forall (F : Type) (N : Num F) (H : Half F) (dx D : F),
      select_dt dx D
      = match pow2 dx with
        | Raise e => Raise e
        | Ok s =>
            if is_zero D then Raise ZeroDivisionError
            else Ok (half * (s / D))%num
        end)
  /\ (forall (L : Libm) (dx D : float),
      PrimFloat.ltb 0 D = true ->
      select_dt (N := binary64 L) dx D
      = if float_pow2_raises L dx then Raise OverflowError
        else Ok (0.5 * (float_square L dx / D))%float)
  /\ (forall L : Libm,
      c_pow2 L 0.5%float = 0.25%float ->
      c_pow2_erange L 0.5%float = false ->
      select_dt (N := binary64 L) 0.5%float 100%float
      = Ok 0x1.47ae147ae147bp-10%float).
Proof.
  split; [|split].
  - intros F N H dx D. apply select_dt_cases.
  - intros L dx D HD. rewrite select_dt_cases. unfold pow2.
    cbn [pow2_overflows square is_zero half mul div binary64 float_half].
    destruct (float_pow2_raises L dx); [reflexivity|].
    now rewrite (positive_nonzero D HD).
  - intros L Hv He. rewrite select_dt_cases.
    rewrite (library_base L 0.5%float) by (vm_compute; reflexivity).
    change (PrimFloat.abs 0.5) with 0.5%float.
    rewrite He, Hv. vm_compute. reflexivity.
Qed.

Lemma select_dt_formula_witness :
  select_dt (N := binary64 correctly_rounded) 0x1.4e718d7d7625ap+664%float
            100%float
  = (if float_pow2_raises correctly_rounded 0x1.4e718d7d7625ap+664
     then Raise OverflowError
     else Ok (0.5 * (float_square correctly_rounded 0x1.4e718d7d7625ap+664
                     / 100))%float)
  /\ select_dt (N := binary64 correctly_rounded) 0.5%float 100%float
     = Ok 0x1.47ae147ae147bp-10%float.
Proof.
  split.
  - apply (proj1 (proj2 select_dt_formula) correctly_rounded).
    vm_compute. reflexivity.
  - apply (proj2 (proj2 select_dt_formula) correctly_rounded);
      vm_compute; reflexivity.
Defined.

(** ** Rotations against the interior-only update *)

Section InteriorOnly.

Context {F : Type} {N : Num F}.
Open Scope num_scope.



End InteriorOnly.




(** ** The loop *)

Lemma range_length (start stop : Z) :
  length (range start stop) = Z.to_nat (stop - start).
Proof. unfold range. now rewrite length_map, length_seq. Qed.

Lemma for_each_apply_n {St : Type} (f : St -> result St) (g : nat -> Z)
  (n a : nat) (s : St) :
  for_each (map g (seq a n)) (fun _ => f) s = apply_n n f s.
Proof.
  revert a s; induction n as [|n IH]; intros a s; [reflexivity|].
  cbn [seq map for_each apply_n]. destruct (f s) as [s'|e]; cbn [bind];
    [apply IH|reflexivity].
Qed.

Section LoopFacts.

Context {F : Type} {N : Num F}.

Variables D dt dx C_left C_right : F.

Lemma loop_apply_n (nt : Z) (C : list F) :
  loop D dt dx nt C_left C_right C
  = apply_n (Z.to_nat nt) (step D dt dx C_left C_right) C.
Proof.
  unfold loop, range. rewrite Z.sub_0_r. apply for_each_apply_n.
Qed.

Lemma loop_zero (nt : Z) (C : list F) :
  (nt <= 0)%Z -> loop D dt dx nt C_left C_right C = Ok C.
Proof.
  intros H. rewrite loop_apply_n.
  now replace (Z.to_nat nt) with 0%nat by lia.
Qed.

Lemma loop_first (nt : Z) (C : list F) :
  (1 <= nt)%Z ->
  loop D dt dx nt C_left C_right C
  = (C' <- step D dt dx C_left C_right C ;;
     loop D dt dx (nt - 1) C_left C_right C').
Proof.
  intros H. rewrite loop_apply_n.
  replace (Z.to_nat nt) with (S (Z.to_nat (nt - 1))) by lia.
  cbn [apply_n]. destruct (step D dt dx C_left C_right C); cbn [bind];
    [now rewrite loop_apply_n|reflexivity].
Qed.

Lemma apply_n_step_length (n : nat) (C C' : list F) :
  apply_n n (step D dt dx C_left C_right) C = Ok C' ->
  length C' = length C.
Proof.
  revert C; induction n as [|n IH]; intros C; cbn [apply_n].
  - now intros [= ->].
  - destruct (step D dt dx C_left C_right C) as [C1|e] eqn:E; cbn [bind];
      [|discriminate].
    intros H. rewrite (IH _ H). now apply step_length in E.
Qed.

(** Once [D*dt/dx**2] has a value, no step on a non-empty field raises. *)
Lemma apply_n_step_ok (k : F) (n : nat) (C : list F) :
  coefficient D dt dx = Ok k -> C <> [] ->
  exists C', apply_n n (step D dt dx C_left C_right) C = Ok C'.
Proof.
  intros Hk. revert C; induction n as [|n IH]; intros C HC; cbn [apply_n].
  - now exists C.
  - rewrite (step_ok D dt dx C_left C_right k C Hk HC). cbn [bind].
    apply IH. intros E. apply (f_equal (@length F)) in E.
    rewrite !update_length, updated_length in E.
    destruct C; [congruence|discriminate].
Qed.

(** The boundary entries after at least one step. *)
Lemma apply_n_step_boundary (k : F) (n : nat) (C C' : list F) :
  coefficient D dt dx = Ok k -> (2 <= length C)%nat ->
  apply_n (S n) (step D dt dx C_left C_right) C = Ok C' ->
  nth 0 C' zero = C_left /\ nth (length C' - 1) C' zero = C_right.
Proof.
  intros Hk. revert C; induction n as [|n IH]; intros C Hn.
  - cbn [apply_n].
    destruct (step D dt dx C_left C_right C) as [C1|e] eqn:E; cbn [bind];
      [|discriminate].
    intros [= <-]. split.
    + now apply (step_left D dt dx C_left C_right k C Hk).
    + rewrite (step_length _ _ _ _ _ _ _ E).
      apply (step_right D dt dx C_left C_right k C Hk); [|exact E].
      destruct C; [simpl in Hn; lia|discriminate].
  - change (apply_n (S (S n)) (step D dt dx C_left C_right) C)
      with (C1 <- step D dt dx C_left C_right C ;;
            apply_n (S n) (step D dt dx C_left C_right) C1).
    destruct (step D dt dx C_left C_right C) as [C1|e] eqn:E; cbn [bind];
      [|discriminate].
    apply IH. rewrite (step_length _ _ _ _ _ _ _ E). exact Hn.
Qed.

(** A step that returns had a coefficient and a non-empty field. *)
Lemma step_ok_inv (C C' : list F) :
  step D dt dx C_left C_right C = Ok C' ->
  (exists k : F, coefficient D dt dx = Ok k) /\ C <> [].
Proof.
  destruct (coefficient D dt dx) as [k|e] eqn:Hk.
  - destruct C as [|c C0].
    + rewrite (step_empty D dt dx C_left C_right k Hk). discriminate.
    + intros _. split; [now exists k|discriminate].
  - rewrite (step_raise D dt dx C_left C_right e C Hk). discriminate.
Qed.

(** Steps in sequence can only fail at the first of them. *)
Lemma apply_n_step_raise (n : nat) (e : PyError) (C : list F) :
  apply_n n (step D dt dx C_left C_right) C = Raise e ->
  step D dt dx C_left C_right C = Raise e.
Proof.
  destruct n as [|n]; cbn [apply_n]; [discriminate|].
  destruct (step D dt dx C_left C_right C) as [C1|e1] eqn:E; cbn [bind];
    [|now intros [= ->]].
  destruct (step_ok_inv C C1 E) as [[k Hk] HC].
  assert (HC1 : C1 <> []).
  { intros ->. apply step_length in E. destruct C; [congruence|discriminate]. }
  destruct (apply_n_step_ok k n C1 Hk HC1) as [C' E'].
  rewrite E'. discriminate.
Qed.

End LoopFacts.

(** ** The boundary entries *)

(** C3, as stated, fails for [nt = 0]: the notebook's [D = 100], [dx = 0.5]
    and the field [[1, 2, 3]] are valid, the run returns the field as it is,
    and its first entry is not the left boundary value [10].  (The time-step
    cell runs with [pow(0.5, 2.0) = 0.25].) *)
Lemma boundary_not_enforced_without_steps :
  (2 <= length [1; 2; 3]%float)%nat /\
  PrimFloat.ltb 0 100 = true /\ PrimFloat.ltb 0 0.5 = true /\
  exists C' : list float,
    simulate (N := binary64 correctly_rounded)
             [1; 2; 3]%float 100%float 0.5%float 0 10%float 8%float = Ok C'
    /\ nth 0 C' 0%float <> 10%float.
Proof.
  split; [simpl; lia|]. split; [reflexivity|]. split; [reflexivity|].
  exists [1; 2; 3]%float. split; [vm_compute; reflexivity|].
  cbn [nth]. b64_differ.
Qed.

(** A loop of at least one step that returns has reset both ends. *)
Lemma loop_returned_boundary {F : Type} {N : Num F}
  (D dt dx C_left C_right : F) (nt : Z) (C C' : list F) :
  (2 <= length C)%nat -> (1 <= nt)%Z ->
  loop D dt dx nt C_left C_right C = Ok C' ->
  nth 0 C' zero = C_left /\ nth (length C' - 1) C' zero = C_right.
Proof.
  intros Hn Hnt E. rewrite loop_apply_n in E.
  replace (Z.to_nat nt) with (S (Z.to_nat nt - 1)) in E by lia.
  pose proof E as E1. cbn [apply_n] in E1.
  destruct (step D dt dx C_left C_right C) as [C1|e] eqn:E0; cbn [bind] in E1;
    [|discriminate].
  destruct (step_ok_inv D dt dx C_left C_right C C1 E0) as [[k Hk] _].
  exact (apply_n_step_boundary D dt dx C_left C_right k _ C C' Hk Hn E).
Qed.

(** C3, amended.  After at least one step on a field of at least two
    entries the first entry is [C_left] and the last is [C_right], for any
    number type: the loop returns such a field once [D*dt/dx**2] has a
    value, every field the loop returns is such a field, and so is every
    field the whole run (time-step cell, then loop cell) returns. *)
Theorem loop_boundary_after_steps :
  (forall (F : Type) (N : Num F) (D dt dx C_left C_right k : F) (nt : Z)
          (C : list F),
      (2 <= length C)%nat -> (1 <= nt)%Z ->
      coefficient D dt dx = Ok k ->
      exists C' : list F,
        loop D dt dx nt C_left C_right C = Ok C' /\
        nth 0 C' zero = C_left /\
        nth (length C' - 1) C' zero = C_right)
  /\ (forall (F : Type) (N : Num F) (D dt dx C_left C_right : F) (nt : Z)
             (C C' : list F),
      (2 <= length C)%nat -> (1 <= nt)%Z ->
      loop D dt dx nt C_left C_right C = Ok C' ->
      nth 0 C' zero = C_left /\ nth (length C' - 1) C' zero = C_right)
  /\ (forall (F : Type) (N : Num F) (H : Half F) (D dx C_left C_right : F)
             (nt : Z) (C C' : list F),
      (2 <= length C)%nat -> (1 <= nt)%Z ->
      simulate C D dx nt C_left C_right = Ok C' ->
      nth 0 C' zero = C_left /\ nth (length C' - 1) C' zero = C_right).
Proof.
  split; [|split].
  - intros F N D dt dx C_left C_right k nt C Hn Hnt Hk.
    assert (HC : C <> []) by (destruct C; [simpl in Hn; lia|discriminate]).
    rewrite loop_apply_n.
    destruct (apply_n_step_ok D dt dx C_left C_right k (Z.to_nat nt) C Hk HC)
      as [C' E].
    exists C'. split; [exact E|].
    replace (Z.to_nat nt) with (S (Z.to_nat nt - 1)) in E by lia.
    exact (apply_n_step_boundary D dt dx C_left C_right k _ C C' Hk Hn E).
  - intros F N D dt dx C_left C_right nt C C'.
    apply loop_returned_boundary.
  - intros F N H D dx C_left C_right nt C C' Hn Hnt. unfold simulate.
    destruct (select_dt dx D) as [dt|e]; cbn [bind]; [|discriminate].
    now apply loop_returned_boundary.
Qed.

Lemma loop_boundary_after_steps_witness :
  exists C' : list float,
    loop (N := binary64 correctly_rounded)
         100%float 0x1.47ae147ae147bp-10%float 0.5%float 2 10%float 8%float
         [1; 2; 3]%float = Ok C' /\
    nth 0 C' 0%float = 10%float /\
    nth (length C' - 1) C' 0%float = 8%float.
Proof.
  apply (proj1 loop_boundary_after_steps float (binary64 correctly_rounded)
           100%float 0x1.47ae147ae147bp-10%float 0.5%float
           10%float 8%float 0.5%float 2%Z [1; 2; 3]%float).
  - simpl; lia.
  - lia.
  - vm_compute. reflexivity.
Defined.

(** ** A run of no steps *)

(** C4, as stated, fails when the input does not already carry the boundary
    values: with [nt = 0] the field [[4, 2, 7, 1]] comes back with first
    entry [4] and last entry [1], not [500] and [0].  (No statement of the
    body runs, so [dx**2] is never evaluated.) *)
Lemma zero_steps_leave_boundaries :
  exists C' : list float,
    loop (N := binary64 correctly_rounded)
         100%float 0x1.47ae147ae147bp-10%float 0.5%float 0 500%float 0%float
         [4; 2; 7; 1]%float = Ok C' /\
    nth 0 C' 0%float <> 500%float /\
    nth 3 C' 0%float <> 0%float.
Proof.
  exists [4; 2; 7; 1]%float. split; [reflexivity|].
  cbn [nth]. split; b64_differ.
Qed.

(** C4, amended.  With [nt = 0] the loop returns the initial field as it
    is: every entry, the two boundary entries included, is the input's. *)
Theorem loop_zero_steps_identity :
  forall (F : Type) (N : Num F) (D dt dx C_left C_right : F) (C : list F),
    loop D dt dx 0 C_left C_right C = Ok C.
Proof. intros. reflexivity. Qed.

(** ** Length *)

(** C10. A step returns a field of the length of its input, and so does any
    number of steps; a step on a non-empty field does return once
    [D*dt/dx**2] has a value. *)
Theorem step_preserves_length :
  forall (F : Type) (N : Num F) (D dt dx C_left C_right : F) (C : list F),
    (forall C' : list F,
        step D dt dx C_left C_right C = Ok C' -> length C' = length C) /\
    (forall (nt : Z) (C' : list F),
        loop D dt dx nt C_left C_right C = Ok C' -> length C' = length C) /\
    (forall k : F, coefficient D dt dx = Ok k -> C <> [] ->
       exists C' : list F,
         step D dt dx C_left C_right C = Ok C' /\ length C' = length C).
Proof.
  intros F N D dt dx C_left C_right C. split; [|split].
  - intros C'. apply step_length.
  - intros nt C'. rewrite loop_apply_n. apply apply_n_step_length.
  - intros k Hk HC. eexists. split.
    + exact (step_ok D dt dx C_left C_right k C Hk HC).
    + now rewrite !update_length, updated_length.
Qed.

Lemma step_preserves_length_witness :
  length [10; 7.5; 10; 6.5; 8]%float = length [10; 20; 5; 0; 8]%float.
Proof.
  apply (proj1 (step_preserves_length float (binary64 correctly_rounded)
                  1%float 0.5%float 1%float 10%float 8%float
                  [10; 20; 5; 0; 8]%float)).
  vm_compute. reflexivity.
Defined.

(** ** Failing runs *)

Section Failures.

Context {F : Type} {N : Num F} {Lit : Half F}.
Open Scope num_scope.

Variables (D dx C_left C_right s : F) (nt : Z) (C : list F).
Hypothesis Hs : pow2 dx = Ok s.

Lemma simulate_unfold :
  simulate C D dx nt C_left C_right
  = (q <- truediv s D ;; loop D (half * q) dx nt C_left C_right C).
Proof. unfold simulate, select_dt. rewrite Hs. cbn [bind].
  now destruct (truediv s D). Qed.

Lemma simulate_zero_D :
  is_zero D = true ->
  simulate C D dx nt C_left C_right = Raise ZeroDivisionError.
Proof. intros H. rewrite simulate_unfold. unfold truediv. now rewrite H. Qed.

Lemma simulate_nonzero_D :
  is_zero D = false ->
  simulate C D dx nt C_left C_right
  = loop D (half * (s / D)) dx nt C_left C_right C.
Proof. intros H. rewrite simulate_unfold. unfold truediv. now rewrite H. Qed.

Lemma coefficient_unfold (dt : F) :
  coefficient D dt dx = truediv (D * dt) s.
Proof. unfold coefficient. now rewrite Hs. Qed.

End Failures.

(** C2, as stated, fails: with the negative diffusivity [D = -5] the run
    raises nothing and returns a field.  ([dx = 0.5], with
    [pow(0.5, 2.0) = 0.25].) *)
Lemma negative_diffusivity_runs :
  PrimFloat.leb (-5) 0 = true /\
  simulate (N := binary64 correctly_rounded)
           [1; 2; 3]%float (-5)%float 0.5%float 3 10%float 8%float
  = Ok [10; 9; 8]%float.
Proof. split; vm_compute; reflexivity. Qed.

(** C2, amended.  The run checks none of its parameters; it stops only on
    the exceptions Python raises, and then in the time-step selection or in
    the first step, before any step has completed.  If [dx**2] raises (it
    overflows) so does the run.  Otherwise let [s] be its value.  If
    [D == 0] the time-step selection raises [ZeroDivisionError]; otherwise
    a run of no steps returns the field; otherwise [s == 0] makes the first
    step raise [ZeroDivisionError] and an empty field makes it raise
    [IndexError]; every other run, whatever the signs of [D] and [dx] and
    for a field of one entry too, returns a field of the length of its
    input. *)
Theorem simulate_raises_only_python_errors :
  forall (F : Type) (N : Num F) (H : Half F) (D dx C_left C_right : F)
         (nt : Z) (C : list F),
    (forall e : PyError,
        pow2 dx = Raise e ->
        simulate C D dx nt C_left C_right = Raise e) /\
    (forall s : F,
        pow2 dx = Ok s ->
        (is_zero D = true ->
           simulate C D dx nt C_left C_right = Raise ZeroDivisionError) /\
        (is_zero D = false -> (nt <= 0)%Z ->
           simulate C D dx nt C_left C_right = Ok C) /\
        (is_zero D = false -> (1 <= nt)%Z -> is_zero s = true ->
           simulate C D dx nt C_left C_right = Raise ZeroDivisionError) /\
        (is_zero D = false -> (1 <= nt)%Z -> is_zero s = false -> C = [] ->
           simulate C D dx nt C_left C_right = Raise IndexError) /\
        (is_zero D = false -> (1 <= nt)%Z -> is_zero s = false -> C <> [] ->
           exists C' : list F,
             simulate C D dx nt C_left C_right = Ok C' /\
             length C' = length C)) /\
    (forall e : PyError,
        simulate C D dx nt C_left C_right = Raise e ->
        select_dt dx D = Raise e \/
        exists dt : F,
          select_dt dx D = Ok dt /\
          step D dt dx C_left C_right C = Raise e).
Proof.
  intros F N H D dx C_left C_right nt C.
  split; [|split].
  { intros e He. unfold simulate, select_dt. now rewrite He. }
  { intros s Hs.
    split; [exact (simulate_zero_D D dx C_left C_right s nt C Hs)|].
    split; [|split; [|split]].
    - intros HD Hnt.
      rewrite (simulate_nonzero_D D dx C_left C_right s nt C Hs HD).
      now apply loop_zero.
    - intros HD Hnt Hz.
      rewrite (simulate_nonzero_D D dx C_left C_right s nt C Hs HD).
      rewrite loop_first by exact Hnt.
      rewrite (step_raise D _ dx C_left C_right ZeroDivisionError C);
        [reflexivity|].
      rewrite (coefficient_unfold D dx s Hs). unfold truediv. now rewrite Hz.
    - intros HD Hnt Hz ->.
      rewrite (simulate_nonzero_D D dx C_left C_right s nt [] Hs HD).
      rewrite loop_first by exact Hnt.
      rewrite (step_empty D _ dx C_left C_right
                 (D * (half * (s / D)) / s)%num); [reflexivity|].
      rewrite (coefficient_unfold D dx s Hs). unfold truediv. now rewrite Hz.
    - intros HD Hnt Hz HC.
      rewrite (simulate_nonzero_D D dx C_left C_right s nt C Hs HD).
      assert (Hk : coefficient D (half * (s / D))%num dx
                   = Ok (D * (half * (s / D)) / s)%num).
      { rewrite (coefficient_unfold D dx s Hs). unfold truediv.
        now rewrite Hz. }
      rewrite loop_apply_n.
      destruct (apply_n_step_ok D _ dx C_left C_right _ (Z.to_nat nt) C Hk HC)
        as [C' E].
      exists C'. split; [exact E|].
      exact (apply_n_step_length D _ dx C_left C_right _ C C' E). }
  intros e. unfold simulate.
  destruct (select_dt dx D) as [dt|e0]; cbn [bind].
  - intros Hr. right. exists dt. split; [reflexivity|].
    rewrite loop_apply_n in Hr.
    exact (apply_n_step_raise D dt dx C_left C_right _ e C Hr).
  - intros [= ->]. now left.
Qed.

Lemma simulate_raises_only_python_errors_witness :
  exists C' : list float,
    simulate (N := binary64 correctly_rounded)
             [7]%float (-5)%float (-0.5)%float 3 10%float 8%float = Ok C' /\
    length C' = length [7]%float.
Proof.
  apply (proj2 (proj2 (proj2 (proj2
           (proj1 (proj2
              (simulate_raises_only_python_errors
                 float (binary64 correctly_rounded) float_half
                 (-5)%float (-0.5)%float 10%float 8%float 3%Z [7]%float))
              0.25%float eq_refl))))).
  - reflexivity.
  - lia.
  - reflexivity.
  - discriminate.
Defined.

(** ** Symmetry about the midpoint *)

Section Symmetry.

Context {F : Type} {N : Num F}.
Open Scope num_scope.

Variables D dt dx v k : F.
Hypothesis Hk : coefficient D dt dx = Ok k.

Lemma step_symmetric (C C' : list F) :
  (2 <= length C)%nat -> symmetric C -> balanced C ->
  step D dt dx v v C = Ok C' -> symmetric C'.
Proof.
  intros Hn Hsym Hbal E i Hi.
  pose proof (step_length D dt dx v v C C' E) as Hlen.
  rewrite Hlen in *.
  assert (HC : C <> []) by (destruct C; [simpl in Hn; lia|discriminate]).
  pose proof (step_left D dt dx v v k C Hk C' Hn E) as Hl.
  pose proof (step_right D dt dx v v k C Hk C' HC E) as Hr.
  destruct (Nat.eq_dec i 0) as [->|H0].
  { rewrite Nat.sub_0_r. congruence. }
  destruct (Nat.eq_dec i (length C - 1)) as [->|H1].
  { replace (length C - 1 - (length C - 1))%nat with 0%nat by lia.
    congruence. }
  rewrite (step_interior D dt dx v v k C Hk C' i) by (lia || exact E).
  rewrite (step_interior D dt dx v v k C Hk C' (length C - 1 - i))
    by (lia || exact E).
  rewrite (Hsym i), (Hsym (i + 1)%nat), (Hsym (i - 1)%nat) by lia.
  replace (length C - 1 - (i + 1))%nat with (length C - 1 - i - 1)%nat by lia.
  replace (length C - 1 - (i - 1))%nat with (length C - 1 - i + 1)%nat by lia.
  f_equal. f_equal. symmetry. apply Hbal; lia.
Qed.

Lemma apply_n_step_symmetric (n : nat) (C C' : list F) :
  (2 <= length C)%nat -> symmetric C ->
  (forall (j : nat) (Cj : list F), (j < n)%nat ->
     apply_n j (step D dt dx v v) C = Ok Cj -> balanced Cj) ->
  apply_n n (step D dt dx v v) C = Ok C' -> symmetric C'.
Proof.
  revert C; induction n as [|n IH]; intros C Hn Hsym Hbal; cbn [apply_n].
  - now intros [= <-].
  - destruct (step D dt dx v v C) as [C1|e] eqn:E; cbn [bind];
      [|discriminate].
    apply IH.
    + now rewrite (step_length D dt dx v v C C1 E).
    + apply (step_symmetric C C1 Hn Hsym); [|exact E].
      apply (Hbal 0%nat); [lia|reflexivity].
    + intros j Cj Hj Ej. apply (Hbal (S j)); [lia|].
      cbn [apply_n]. now rewrite E.
Qed.

End Symmetry.

(** With exact numbers the order of the two neighbours does not matter. *)
Lemma exact_balanced (C : list Qc) : balanced C.
Proof. intros i _ _. cbn. ring. Qed.

(** C7, as stated, fails in binary64.  The field
    [[-2^54, 1, 2^54, 1, -2^54]] is symmetric; take [D = 1], [dt = 0.5],
    [dx = 1] and both boundary values [7].  At index [1] the stencil sum is
    [(2^54 - 2) + -2^54 = -2]; at index [3] it is [(-2^54 - 2) + 2^54], where
    [-2^54 - 2] is no binary64 value and rounds to [-2^54], so the sum is
    [0].  One step returns [[7, 0, 0, 1, 7]], whose entries [1] and [3]
    differ. *)
Lemma binary64_step_breaks_symmetry :
  (2 <= length [-0x1p54; 1; 0x1p54; 1; -0x1p54]%float)%nat /\
  symmetric (N := binary64 correctly_rounded)
    [-0x1p54; 1; 0x1p54; 1; -0x1p54]%float /\
  loop (N := binary64 correctly_rounded)
       1%float 0.5%float 1%float 1 7%float 7%float
       [-0x1p54; 1; 0x1p54; 1; -0x1p54]%float
  = Ok [7; 0; 0; 1; 7]%float /\
  ~ symmetric (N := binary64 correctly_rounded) [7; 0; 0; 1; 7]%float.
Proof.
  split; [simpl; lia|]. split; [|split].
  - intros i Hi. cbn [length] in *.
    do 5 (destruct i as [|i]; [reflexivity|]). lia.
  - vm_compute. reflexivity.
  - intros H. specialize (H 1%nat). cbn in H.
    assert (E : 0%float = 1%float) by (apply H; lia).
    revert E. b64_differ.
Qed.

(** C7, amended.  A symmetric field of at least two entries with equal
    boundary values is symmetric after a step whenever the stencil sum
    [(C[i+1] - 2*C[i]) + C[i-1]] has the same value with the two neighbours
    exchanged at every interior index, and after any number of steps
    whenever that holds of the field before each of them; this is for any
    number type, binary64 included, and the loop does return once
    [D*dt/dx**2] has a value.  With exact numbers the two sums always agree,
    so the field is symmetric after any number of steps. *)
Theorem loop_keeps_symmetry :
  (forall (F : Type) (N : Num F) (D dt dx v k : F) (C : list F),
      coefficient D dt dx = Ok k ->
      (2 <= length C)%nat ->
      symmetric C -> balanced C ->
      exists C' : list F,
        step D dt dx v v C = Ok C' /\ symmetric C')
  /\ (forall (F : Type) (N : Num F) (D dt dx v k : F) (nt : Z) (C : list F),
      coefficient D dt dx = Ok k ->
      (2 <= length C)%nat ->
      symmetric C ->
      (forall (j : nat) (Cj : list F), (Z.of_nat j < nt)%Z ->
         apply_n j (step D dt dx v v) C = Ok Cj -> balanced Cj) ->
      exists C' : list F,
        loop D dt dx nt v v C = Ok C' /\ symmetric C')
  /\ (forall (D dt dx v : Qc) (nt : Z) (C : list Qc),
      dx <> 0%Qc ->
      (2 <= length C)%nat ->
      symmetric C ->
      exists C' : list Qc,
        loop D dt dx nt v v C = Ok C' /\ symmetric C').
Proof.
  assert (G : forall (F : Type) (N : Num F) (D dt dx v k : F) (nt : Z)
                     (C : list F),
             coefficient D dt dx = Ok k ->
             (2 <= length C)%nat ->
             symmetric C ->
             (forall (j : nat) (Cj : list F), (Z.of_nat j < nt)%Z ->
                apply_n j (step D dt dx v v) C = Ok Cj -> balanced Cj) ->
             exists C' : list F,
               loop D dt dx nt v v C = Ok C' /\ symmetric C').
  { intros F N D dt dx v k nt C Hk Hn Hsym Hbal.
    assert (HC : C <> []) by (destruct C; [simpl in Hn; lia|discriminate]).
    rewrite loop_apply_n.
    destruct (apply_n_step_ok D dt dx v v k (Z.to_nat nt) C Hk HC)
      as [C' E].
    exists C'. split; [exact E|].
    apply (apply_n_step_symmetric D dt dx v k Hk (Z.to_nat nt) C C' Hn Hsym);
      [|exact E].
    intros j Cj Hj. apply Hbal. lia. }
  split; [|split].
  - intros F N D dt dx v k C Hk Hn Hsym Hbal.
    assert (HC : C <> []) by (destruct C; [simpl in Hn; lia|discriminate]).
    eexists. split; [exact (step_ok D dt dx v v k C Hk HC)|].
    apply (step_symmetric D dt dx v k Hk C _ Hn Hsym Hbal).
    exact (step_ok D dt dx v v k C Hk HC).
  - exact G.
  - intros D dt dx v nt C Hdx Hn Hsym.
    apply (G Qc exact D dt dx v _ nt C (coefficient_exact D dt dx Hdx) Hn Hsym).
    intros j Cj _ _. apply exact_balanced.
Qed.

Lemma loop_keeps_symmetry_witness :
  exists C' : list float,
    loop (N := binary64 correctly_rounded)
         1%float 0.5%float 1%float 2 7%float 7%float [3; 1; 4; 1; 3]%float
    = Ok C' /\
    symmetric (N := binary64 correctly_rounded) C'.
Proof.
  apply (proj1 (proj2 loop_keeps_symmetry) float (binary64 correctly_rounded)
           1%float 0.5%float 1%float 7%float 0.5%float 2%Z
           [3; 1; 4; 1; 3]%float).
  - vm_compute. reflexivity.
  - simpl; lia.
  - intros i Hi. cbn [length] in *.
    do 5 (destruct i as [|i]; [reflexivity|]). lia.
  - intros j Cj Hj E.
    destruct j as [|[|j]]; [| |lia]; vm_compute in E;
      injection E as <-; intros i H1 H2; cbn [length] in H2;
      do 5 (destruct i as [|i]; [try lia; vm_compute; reflexivity|]); lia.
Defined.

(** ** The loop cell over the notebook's variables *)

Section Notebook.

Context {F : Type} {N : Num F}.
Open Scope num_scope.

Lemma exec_body_step (env : Env F) :
  exec_body env = fmap (set_C env) (step_of env (v_C env)).
Proof.
  unfold exec_body, exec_iadd, exec_set_left, exec_set_right, step_of, step,
    fmap.
  destruct (coefficient (v_D env) (v_dt env) (v_dx env)) as [k|e];
    cbn [bind]; [|reflexivity].
  cbn [v_C v_C_left v_C_right set_C].
  destruct (setitem _ 0 (v_C_left env)) as [C1|e]; cbn [bind];
    [|reflexivity].
  cbn [v_C v_C_left v_C_right set_C].
  now destruct (setitem C1 (-1) (v_C_right env)).
Qed.

Lemma exec_for_each (its : list Z) (env : Env F) :
  fmap v_C (for_each its (fun t env => exec_body (set_t env t)) env)
  = apply_n (length its) (step_of env) (v_C env).
Proof.
  revert env; induction its as [|t its IH]; intros env; [reflexivity|].
  cbn [for_each length apply_n]. rewrite exec_body_step.
  change (step_of (set_t env t) (v_C (set_t env t)))
    with (step_of env (v_C env)).
  destruct (step_of env (v_C env)) as [C1|e]; cbn [fmap bind];
    [|reflexivity].
  exact (IH (set_C (set_t env t) C1)).
Qed.

Lemma exec_loop_loop (env : Env F) :
  fmap v_C (exec_loop env)
  = loop (v_D env) (v_dt env) (v_dx env) (v_nt env)
         (v_C_left env) (v_C_right env) (v_C env).
Proof.
  unfold exec_loop. rewrite exec_for_each, loop_apply_n.
  now rewrite range_length, Z.sub_0_r.
Qed.

Lemma last_range (nt : Z) : (1 <= nt)%Z -> last (range 0 nt) 0%Z = (nt - 1)%Z.
Proof.
  intros H. unfold range. rewrite Z.sub_0_r.
  replace (Z.to_nat nt) with (S (Z.to_nat (nt - 1))) by lia.
  rewrite seq_S, map_app. cbn [map]. rewrite last_last. lia.
Qed.

(** The store after the iterations: the field is that of the steps in
    sequence, the loop variable holds the last value it was given, no other
    variable has changed. *)
Lemma exec_for_each_store (its : list Z) (env : Env F) :
  for_each its (fun t env => exec_body (set_t env t)) env
  = fmap (set_C match its with
                | [] => env
                | _ :: _ => set_t env (last its 0%Z)
                end)
         (apply_n (length its) (step_of env) (v_C env)).
Proof.
  revert env; induction its as [|t its IH]; intros env.
  - now destruct env.
  - cbn [for_each length apply_n]. rewrite exec_body_step.
    change (step_of (set_t env t) (v_C (set_t env t)))
      with (step_of env (v_C env)).
    destruct (step_of env (v_C env)) as [C1|e]; cbn [fmap bind];
      [|reflexivity].
    rewrite IH.
    change (step_of (set_C (set_t env t) C1)) with (step_of env).
    cbn [v_C set_C].
    destruct (apply_n (length its) (step_of env) C1) as [C'|e];
      [|reflexivity].
    now destruct its.
Qed.

Lemma exec_loop_store (env : Env F) :
  exec_loop env
  = fmap (set_C (if (1 <=? v_nt env)%Z then set_t env (v_nt env - 1)
                 else env))
         (loop (v_D env) (v_dt env) (v_dx env) (v_nt env)
               (v_C_left env) (v_C_right env) (v_C env)).
Proof.
  unfold exec_loop. rewrite exec_for_each_store, loop_apply_n.
  rewrite range_length, Z.sub_0_r. unfold step_of.
  destruct (Z.leb_spec 1 (v_nt env)) as [Hnt|Hnt].
  - rewrite <- (last_range (v_nt env) Hnt).
    destruct (range 0 (v_nt env)) as [|t its] eqn:E; [|reflexivity].
    apply (f_equal (@length Z)) in E. rewrite range_length in E.
    simpl in E. lia.
  - unfold range. now replace (Z.to_nat (v_nt env - 0)) with 0%nat by lia.
Qed.

End Notebook.

(** ** Iterations *)

(** C8, as stated, fails: an exception ends the loop before [nt]
    iterations.  With [nt = 3] an empty field makes the first
    [C[0] = C_left] raise [IndexError], and [dx = 0] makes the first
    [D * dt / dx**2] raise [ZeroDivisionError]; no step completes. *)
Lemma loop_stops_at_first_exception :
  (0 <= 3)%Z /\
  step (N := binary64 correctly_rounded)
       1%float 0.5%float 1%float 10%float 8%float [] = Raise IndexError /\
  loop (N := binary64 correctly_rounded)
       1%float 0.5%float 1%float 3 10%float 8%float [] = Raise IndexError /\
  step (N := binary64 correctly_rounded)
       1%float 0.5%float 0%float 10%float 8%float [10; 20; 5; 0; 8]%float
  = Raise ZeroDivisionError /\
  loop (N := binary64 correctly_rounded)
       1%float 0.5%float 0%float 3 10%float 8%float [10; 20; 5; 0; 8]%float
  = Raise ZeroDivisionError.
Proof. repeat split; (lia || (vm_compute; reflexivity)). Qed.

(** C8, amended.  For [nt >= 0] the loop visits the [nt] values of
    [range(0, nt)] and is the step applied [nt] times in sequence, each
    application on the field the one before returned, the first exception
    ending the sequence.  Only the first step can raise: a loop that raises
    has [nt >= 1] and raises what the step raises on the initial field; once
    [D*dt/dx**2] has a value and the field is not empty every step returns,
    and so does the loop.  The loop cell leaves the store it started from
    with [C] the field of the steps and, for [nt >= 1], [t = nt - 1]. *)
Theorem loop_runs_nt_steps :
  forall (F : Type) (N : Num F) (D dt dx C_left C_right : F) (nt : Z)
         (C : list F),
    (0 <= nt)%Z ->
    Z.of_nat (length (range 0 nt)) = nt /\
    loop D dt dx nt C_left C_right C
    = apply_n (length (range 0 nt)) (step D dt dx C_left C_right) C /\
    (forall k : F, coefficient D dt dx = Ok k -> C <> [] ->
       exists C' : list F, loop D dt dx nt C_left C_right C = Ok C') /\
    (forall e : PyError,
        loop D dt dx nt C_left C_right C = Raise e ->
        (1 <= nt)%Z /\ step D dt dx C_left C_right C = Raise e) /\
    (forall env : Env F,
        v_nt env = nt ->
        exec_loop env
        = fmap (set_C (if (1 <=? nt)%Z then set_t env (nt - 1) else env))
               (loop (v_D env) (v_dt env) (v_dx env) nt
                     (v_C_left env) (v_C_right env) (v_C env))).
Proof.
  intros F N D dt dx C_left C_right nt C Hnt.
  rewrite range_length, Z.sub_0_r. split; [lia|]. split; [|split; [|split]].
  - apply loop_apply_n.
  - intros k Hk HC. rewrite loop_apply_n.
    exact (apply_n_step_ok D dt dx C_left C_right k _ C Hk HC).
  - intros e He. split.
    + destruct (Z.leb_spec 1 nt) as [H1|H1]; [exact H1|].
      rewrite loop_zero in He by lia. discriminate.
    + rewrite loop_apply_n in He.
      exact (apply_n_step_raise D dt dx C_left C_right _ e C He).
  - intros env <-. apply exec_loop_store.
Qed.

Lemma loop_runs_nt_steps_witness :
  Z.of_nat (length (range 0 3)) = 3%Z /\
  loop (N := binary64 correctly_rounded)
       1%float 0.5%float 1%float 3 10%float 8%float [10; 20; 5; 0; 8]%float
  = apply_n (length (range 0 3))
      (step (N := binary64 correctly_rounded)
            1%float 0.5%float 1%float 10%float 8%float)
      [10; 20; 5; 0; 8]%float /\
  (forall k : float,
      coefficient (N := binary64 correctly_rounded) 1%float 0.5%float 1%float
      = Ok k ->
      [10; 20; 5; 0; 8]%float <> [] ->
      exists C' : list float,
        loop (N := binary64 correctly_rounded)
             1%float 0.5%float 1%float 3 10%float 8%float
             [10; 20; 5; 0; 8]%float = Ok C') /\
  (forall e : PyError,
      loop (N := binary64 correctly_rounded)
           1%float 0.5%float 1%float 3 10%float 8%float
           [10; 20; 5; 0; 8]%float = Raise e ->
      (1 <= 3)%Z /\
      step (N := binary64 correctly_rounded)
           1%float 0.5%float 1%float 10%float 8%float
           [10; 20; 5; 0; 8]%float = Raise e) /\
  (forall env : Env float,
      v_nt env = 3%Z ->
      exec_loop (N := binary64 correctly_rounded) env
      = fmap (set_C (if (1 <=? 3)%Z then set_t env (3 - 1) else env))
             (loop (N := binary64 correctly_rounded)
                   (v_D env) (v_dt env) (v_dx env) 3
                   (v_C_left env) (v_C_right env) (v_C env))).
Proof.
  apply (loop_runs_nt_steps float (binary64 correctly_rounded)). lia.
Defined.

(** ** Two runs *)

(** C9. The loop body changes no variable but [C], and the new [C] is the
    function [step] of the old [C], [D], [dt], [dx] and the two boundary
    values; the field the loop cell leaves is the function [loop] of those
    and [nt]; so two runs that start from equal field, [D], [dx], [dt],
    [nt] and boundary values end with equal fields, or raise the same
    exception, whatever the other variables hold. *)
Theorem run_is_a_function_of_its_inputs :
  forall (F : Type) (N : Num F),
    (forall env : Env F,
        exec_body env = fmap (set_C env) (step_of env (v_C env))) /\
    (forall env : Env F,
        fmap v_C (exec_loop env)
        = loop (v_D env) (v_dt env) (v_dx env) (v_nt env)
               (v_C_left env) (v_C_right env) (v_C env)) /\
    (forall e1 e2 : Env F,
        same_inputs e1 e2 ->
        fmap v_C (exec_body e1) = fmap v_C (exec_body e2) /\
        fmap v_C (exec_loop e1) = fmap v_C (exec_loop e2)).
Proof.
  intros F N. split; [exact exec_body_step|]. split; [exact exec_loop_loop|].
  intros e1 e2 (HC & HD & Hdx & Hdt & Hnt & Hl & Hr). split.
  - rewrite !exec_body_step. unfold step_of.
    rewrite HC, HD, Hdx, Hdt, Hl, Hr.
    now destruct (step _ _ _ _ _ _).
  - rewrite !exec_loop_loop. now rewrite HC, HD, Hdx, Hdt, Hnt, Hl, Hr.
Qed.

Lemma run_is_a_function_of_its_inputs_witness :
  fmap v_C
    (exec_loop (N := binary64 correctly_rounded)
       {| v_D := 1; v_Lx := 4; v_dx := 1; v_x := [0; 1; 2; 3; 4];
          v_C := [10; 20; 5; 0; 8]; v_C_left := 10; v_C_right := 8;
          v_time := 0; v_nt := 3; v_dt := 0.5; v_t := None |}%float)
  = fmap v_C
      (exec_loop (N := binary64 correctly_rounded)
         {| v_D := 1; v_Lx := 300; v_dx := 1; v_x := [];
            v_C := [10; 20; 5; 0; 8]; v_C_left := 10; v_C_right := 8;
            v_time := 7; v_nt := 3; v_dt := 0.5; v_t := Some 41%Z |}%float).
Proof.
  apply (proj2 (proj2 (run_is_a_function_of_its_inputs
                         float (binary64 correctly_rounded)))).
  repeat split; reflexivity.
Defined.

(** * Further properties of the loop cell *)

(** ** Steps compose *)

Lemma apply_n_add {St : Type} (f : St -> result St) (n m : nat) (s : St) :
  apply_n (n + m) f s = (s' <- apply_n n f s ;; apply_n m f s').
Proof.
  revert s; induction n as [|n IH]; intros s; [reflexivity|].
  cbn [Nat.add apply_n]. destruct (f s) as [s1|e]; cbn [bind];
    [apply IH|reflexivity].
Qed.

(** X1. A run of [n + m] steps is a run of [n] steps followed by a run of
    [m] steps from the field the first one returned; if the first raises, so
    does the whole. *)
Theorem loop_compose :
  forall (F : Type) (N : Num F) (D dt dx C_left C_right : F) (n m : Z)
         (C : list F),
    (0 <= n)%Z -> (0 <= m)%Z ->
    loop D dt dx (n + m) C_left C_right C
    = (C' <- loop D dt dx n C_left C_right C ;;
       loop D dt dx m C_left C_right C').
Proof.
  intros F N D dt dx C_left C_right n m C Hn Hm.
  rewrite !loop_apply_n, Z2Nat.inj_add, apply_n_add by lia.
  destruct (apply_n (Z.to_nat n) _ C) as [C'|e]; cbn [bind];
    [now rewrite loop_apply_n|reflexivity].
Qed.

Lemma loop_compose_witness :
  loop (N := binary64 correctly_rounded)
       1%float 0.5%float 1%float (2 + 3) 10%float 8%float
       [10; 20; 5; 0; 8]%float
  = (C' <- loop (N := binary64 correctly_rounded)
                1%float 0.5%float 1%float 2 10%float 8%float
                [10; 20; 5; 0; 8]%float ;;
     loop (N := binary64 correctly_rounded)
          1%float 0.5%float 1%float 3 10%float 8%float C').
Proof. apply (loop_compose float (binary64 correctly_rounded)); lia. Defined.

(** ** What the loop cell leaves alone *)

Section Frame.

Context {F : Type} {N : Num F}.

Lemma exec_for_each_frame (its : list Z) (env env' : Env F) :
  for_each its (fun t env => exec_body (set_t env t)) env = Ok env' ->
  unchanged env env'.
Proof.
  revert env; induction its as [|t its IH]; intros env; cbn [for_each].
  - intros [= <-]. now repeat split.
  - rewrite exec_body_step.
    destruct (step_of (set_t env t) (v_C (set_t env t))) as [C1|e];
      cbn [fmap bind]; [|discriminate].
    intros H. apply IH in H. exact H.
Qed.

End Frame.

(** X2. A loop cell that returns has changed no variable but [C] and [t]:
    [D], [Lx], [dx], [x], the boundary values, [nt] and [dt] are what they
    were, and [time] is never advanced. *)
Theorem exec_loop_frame :
  forall (F : Type) (N : Num F) (env env' : Env F),
    exec_loop env = Ok env' -> unchanged env env'.
Proof. intros F N env env'. apply exec_for_each_frame. Qed.

Lemma exec_loop_frame_witness :
  unchanged
    {| v_D := 1; v_Lx := 4; v_dx := 1; v_x := [0; 1; 2; 3; 4];
       v_C := [10; 20; 5; 0; 8]; v_C_left := 10; v_C_right := 8;
       v_time := 0; v_nt := 1; v_dt := 0.5; v_t := None |}%float
    {| v_D := 1; v_Lx := 4; v_dx := 1; v_x := [0; 1; 2; 3; 4];
       v_C := [10; 7.5; 10; 6.5; 8]; v_C_left := 10; v_C_right := 8;
       v_time := 0; v_nt := 1; v_dt := 0.5; v_t := Some 0%Z |}%float.
Proof.
  apply (exec_loop_frame float (binary64 correctly_rounded)).
  vm_compute. reflexivity.
Defined.

(** ** Fields of one and two entries *)

(** X3. On a field of one entry the two boundary assignments hit the same
    entry and the second wins: any run of at least one step returns
    [[C_right]].  On a field of two entries it returns
    [[C_left, C_right]], whatever the field held.  (Both once [D*dt/dx**2]
    has a value.) *)
Theorem loop_short_fields :
  forall (F : Type) (N : Num F) (D dt dx C_left C_right k a b : F) (nt : Z),
    coefficient D dt dx = Ok k -> (1 <= nt)%Z ->
    loop D dt dx nt C_left C_right [a] = Ok [C_right] /\
    loop D dt dx nt C_left C_right [a; b] = Ok [C_left; C_right].
Proof.
  intros F N D dt dx C_left C_right k a b nt Hk Hnt.
  assert (H1 : forall c, step D dt dx C_left C_right [c] = Ok [C_right]).
  { intros c. now rewrite (step_ok D dt dx C_left C_right k [c] Hk). }
  assert (H2 : forall c d,
             step D dt dx C_left C_right [c; d] = Ok [C_left; C_right]).
  { intros c d. now rewrite (step_ok D dt dx C_left C_right k [c; d] Hk). }
  rewrite !loop_apply_n.
  replace (Z.to_nat nt) with (S (Z.to_nat nt - 1)) by lia.
  generalize (Z.to_nat nt - 1)%nat. intros n. split.
  - revert a. induction n as [|n IH]; intros a; cbn [apply_n];
      rewrite H1; cbn [bind]; [reflexivity|apply IH].
  - revert a b. induction n as [|n IH]; intros a b; cbn [apply_n];
      rewrite H2; cbn [bind]; [reflexivity|apply IH].
Qed.

Lemma loop_short_fields_witness :
  loop (N := binary64 correctly_rounded)
       100%float 0x1.47ae147ae147bp-10%float 0.5%float 3 500%float 0%float
       [7]%float = Ok [0]%float /\
  loop (N := binary64 correctly_rounded)
       100%float 0x1.47ae147ae147bp-10%float 0.5%float 3 500%float 0%float
       [7; 9]%float = Ok [500; 0]%float.
Proof.
  apply (loop_short_fields float (binary64 correctly_rounded) 100%float
           0x1.47ae147ae147bp-10%float 0.5%float 500%float 0%float
           0.5%float 7%float 9%float 3%Z).
  - vm_compute. reflexivity.
  - lia.
Defined.

(** ** Rotations *)

(** X4. [np.roll] keeps the length, rotating twice is rotating by the sum
    of the shifts, and so rotating back by [-shift] returns the array. *)
Theorem roll_compose :
  forall (A : Type) (a : list A) (s t : Z),
    length (roll a s) = length a /\
    roll (roll a s) t = roll a (s + t) /\
    roll (roll a s) (- s) = a.
Proof.
  intros A a s t.
  assert (Hc : forall u v : Z, roll (roll a u) v = roll a (u + v)).
  { intros u v. destruct a as [|x a]; [reflexivity|].
    remember (x :: a) as l eqn:El.
    assert (Hn : (0 < Z.of_nat (length l))%Z) by (subst l; simpl; lia).
    apply (nth_ext _ _ x x); [now rewrite !roll_length|].
    intros i Hi. rewrite !roll_length in Hi.
    rewrite nth_roll by (now rewrite roll_length).
    rewrite roll_length.
    pose proof (Z.mod_pos_bound (Z.of_nat i - v) _ Hn) as Hb.
    rewrite nth_roll by lia.
    rewrite nth_roll by exact Hi.
    rewrite Z2Nat.id by lia.
    rewrite Zminus_mod_idemp_l.
    now replace (Z.of_nat i - v - u)%Z with (Z.of_nat i - (u + v))%Z by lia. }
  split; [apply roll_length|]. split; [apply Hc|].
  rewrite Hc, Z.add_opp_diag_r.
  destruct a as [|x a]; [reflexivity|].
  apply (nth_ext _ _ x x); [now rewrite roll_length|].
  intros i Hi. rewrite roll_length in Hi.
  rewrite nth_roll by exact Hi.
  rewrite Z.sub_0_r, Z.mod_small by lia. now rewrite Nat2Z.id.
Qed.

(** * Properties in exact arithmetic *)

(** ** From [Qc] to [Q] *)

Lemma this_plus (x y : Qc) : (this (x + y)%Qc == this x + this y)%Q.
Proof. exact (Qred_correct _). Qed.

Lemma this_mult (x y : Qc) : (this (x * y)%Qc == this x * this y)%Q.
Proof. exact (Qred_correct _). Qed.

Lemma this_opp (x : Qc) : (this (- x)%Qc == - this x)%Q.
Proof. exact (Qred_correct _). Qed.

Lemma this_minus (x y : Qc) : (this (x - y)%Qc == this x - this y)%Q.
Proof. unfold Qcminus. now rewrite this_plus, this_opp. Qed.

Lemma this_Q2Qc (q : Q) : (this (Q2Qc q) == q)%Q.
Proof. exact (Qred_correct _). Qed.

Lemma this_div (x y : Qc) : (this (x / y)%Qc == this x / this y)%Q.
Proof.
  unfold Qcdiv, Qdiv. rewrite this_mult.
  apply Qmult_comp; [reflexivity|exact (Qred_correct _)].
Qed.

Lemma Qc_eq_this (x y : Qc) : x = y <-> (this x == this y)%Q.
Proof.
  split; [now intros ->|apply Qc_is_canon].
Qed.

(** Orders and sums of [Qc] restated over [Q], for [lra] and [nra]. *)
Ltac to_Q :=
  unfold Qcle, Qclt in *;
  repeat match goal with
         | H : @eq Qc _ _ |- _ => apply Qc_eq_this in H
         | |- @eq Qc _ _ => apply Qc_eq_this
         end;
  repeat (rewrite ?this_plus, ?this_minus, ?this_mult, ?this_opp,
           ?this_div, ?this_Q2Qc in * ).

(** ** A coefficient of one half *)

(** X5. With exact numbers and [D*dt/dx**2] equal to [1/2], one step
    replaces every interior entry by the mean of its two neighbours. *)
Theorem half_coefficient_step_is_neighbour_mean :
  forall (D dt dx C_left C_right : Qc) (C : list Qc),
    coefficient D dt dx = Ok (Q2Qc (1 # 2)) -> (2 <= length C)%nat ->
    exists C' : list Qc,
      step D dt dx C_left C_right C = Ok C' /\
      forall i : nat, (1 <= i <= length C - 2)%nat ->
        nth i C' 0%Qc
        = ((nth (i - 1) C 0 + nth (i + 1) C 0) / Q2Qc 2)%Qc.
Proof.
  intros D dt dx C_left C_right C Hk Hn.
  assert (HC : C <> []) by (destruct C; [simpl in Hn; lia|discriminate]).
  eexists. split; [exact (step_ok D dt dx C_left C_right _ C Hk HC)|].
  intros i Hi.
  pose proof (step_interior D dt dx C_left C_right _ C Hk _ i Hi
                (step_ok D dt dx C_left C_right _ C Hk HC)) as E.
  cbn [zero add sub mul two exact] in E. rewrite E.
  apply Qc_is_canon. to_Q. field.
Qed.

Lemma half_coefficient_step_is_neighbour_mean_witness :
  exists C' : list Qc,
    step (Q2Qc 100) (Q2Qc (1 # 800)) (Q2Qc (1 # 2)) (Q2Qc 10) (Q2Qc 8)
         (map Q2Qc [10; 20; 5; 0; 8]%Q) = Ok C' /\
    forall i : nat, (1 <= i <= 3)%nat ->
      nth i C' 0%Qc
      = ((nth (i - 1) (map Q2Qc [10; 20; 5; 0; 8]%Q) 0
          + nth (i + 1) (map Q2Qc [10; 20; 5; 0; 8]%Q) 0) / Q2Qc 2)%Qc.
Proof.
  apply (half_coefficient_step_is_neighbour_mean
           (Q2Qc 100) (Q2Qc (1 # 800)) (Q2Qc (1 # 2)) (Q2Qc 10) (Q2Qc 8)
           (map Q2Qc [10; 20; 5; 0; 8]%Q)).
  - rewrite coefficient_exact by discriminate.
    apply f_equal, Qc_is_canon. reflexivity.
  - simpl; lia.
Defined.

(** ** Bounds and monotone profiles *)

Section Stability.

Open Scope Qc_scope.

Variables (D dt dx C_left C_right k : Qc).
Hypothesis Hk : coefficient D dt dx = Ok k.
Hypothesis Hk0 : 0 <= k.
Hypothesis Hk1 : Q2Qc 2 * k <= 1.

(** Every entry of the stepped field: a boundary value or the stencil. *)
Lemma step_entry (C C' : list Qc) (i : nat) :
  step D dt dx C_left C_right C = Ok C' -> (i < length C)%nat ->
  (i = (length C - 1)%nat /\ nth i C' 0 = C_right) \/
  (i = 0%nat /\ (2 <= length C)%nat /\ nth i C' 0 = C_left) \/
  ((1 <= i <= length C - 2)%nat /\
   nth i C' 0
   = nth i C 0
     + k * ((nth (i + 1) C 0 - Q2Qc 2 * nth i C 0) + nth (i - 1) C 0)).
Proof.
  intros E Hi.
  assert (HC : C <> []) by (destruct C; [simpl in Hi; lia|discriminate]).
  destruct (Nat.eq_dec i (length C - 1)) as [->|Hlast].
  { left. split; [reflexivity|].
    exact (step_right D dt dx C_left C_right k C Hk C' HC E). }
  destruct (Nat.eq_dec i 0) as [->|Hfirst].
  { right; left. split; [reflexivity|]. split; [lia|].
    apply (step_left D dt dx C_left C_right k C Hk C'); [lia|exact E]. }
  right; right. split; [lia|].
  apply (step_interior D dt dx C_left C_right k C Hk C' i); [lia|exact E].
Qed.

Lemma step_within (lo hi : Qc) (C C' : list Qc) :
  lo <= C_left -> C_left <= hi -> lo <= C_right -> C_right <= hi ->
  within lo hi C ->
  step D dt dx C_left C_right C = Ok C' -> within lo hi C'.
Proof.
  intros Hl1 Hl2 Hr1 Hr2 HC E i Hi.
  rewrite (step_length D dt dx C_left C_right C C' E) in Hi.
  destruct (step_entry C C' i E Hi) as [[_ ->]|[(_ & _ & ->)|[Hint ->]]];
    [now split|now split|].
  destruct (HC i ltac:(lia)) as [Hb1 Hb2].
  destruct (HC (i + 1)%nat ltac:(lia)) as [Hc1 Hc2].
  destruct (HC (i - 1)%nat ltac:(lia)) as [Ha1 Ha2].
  split; to_Q; nra.
Qed.

Lemma apply_n_step_within (lo hi : Qc) (n : nat) (C C' : list Qc) :
  lo <= C_left -> C_left <= hi -> lo <= C_right -> C_right <= hi ->
  within lo hi C ->
  apply_n n (step D dt dx C_left C_right) C = Ok C' -> within lo hi C'.
Proof.
  intros Hl1 Hl2 Hr1 Hr2. revert C; induction n as [|n IH]; intros C HC;
    cbn [apply_n].
  - now intros [= <-].
  - destruct (step D dt dx C_left C_right C) as [C1|e] eqn:E; cbn [bind];
      [|discriminate].
    apply IH. exact (step_within lo hi C C1 Hl1 Hl2 Hr1 Hr2 HC E).
Qed.

Lemma step_descends (C C' : list Qc) :
  descends C_left C_right C ->
  step D dt dx C_left C_right C = Ok C' -> descends C_left C_right C'.
Proof.
  intros (Hmono & Hn & Hfirst & Hlast) E.
  pose proof (step_length D dt dx C_left C_right C C' E) as Hlen.
  assert (HC : C <> []) by (destruct C; [simpl in Hn; lia|discriminate]).
  split; [|split; [lia|split]].
  2:{ pose proof (step_left D dt dx C_left C_right k C Hk C' Hn E) as H.
      cbn [zero exact] in H. rewrite H. apply Qcle_refl. }
  2:{ pose proof (step_right D dt dx C_left C_right k C Hk C' HC E) as H.
      cbn [zero exact] in H. rewrite Hlen, H. apply Qcle_refl. }
  intros i Hi. rewrite Hlen in Hi.
  assert (Hchain : forall j : nat, (j + 1 < length C)%nat ->
                     nth (j + 1) C 0 <= nth j C 0) by exact Hmono.
  destruct (step_entry C C' i E ltac:(lia))
    as [[Hi1 _]|[(Hi0 & _ & Ei)|[Hint Ei]]]; [lia| |];
    (destruct (step_entry C C' (i + 1) E ltac:(lia))
      as [[Hj Ej]|[(Hj & _ & _)|[Hjnt Ej]]]; [|lia|]);
    rewrite Ei, Ej; clear Ei Ej.
  - (* two entries: both are boundary values *)
    pose proof (Hchain 0%nat ltac:(lia)) as H01.
    replace (length C - 1)%nat with (0 + 1)%nat in Hlast by lia.
    to_Q. lra.
  - (* the left boundary and its neighbour *)
    subst i.
    pose proof (Hchain 0%nat ltac:(lia)) as H01.
    pose proof (Hchain 1%nat ltac:(lia)) as H12.
    cbn [Nat.add Nat.sub] in *. to_Q. nra.
  - (* the right boundary and its neighbour *)
    pose proof (Hchain (i - 1)%nat ltac:(lia)) as Ha.
    pose proof (Hchain i ltac:(lia)) as Hb.
    replace (i - 1 + 1)%nat with i in Ha by lia.
    replace (length C - 1)%nat with (i + 1)%nat in Hlast by lia.
    to_Q. nra.
  - (* two interior entries *)
    pose proof (Hchain (i - 1)%nat ltac:(lia)) as Ha.
    pose proof (Hchain i ltac:(lia)) as Hb.
    pose proof (Hchain (i + 1)%nat ltac:(lia)) as Hc.
    replace (i - 1 + 1)%nat with i in Ha by lia.
    replace (i + 1 - 1)%nat with i by lia.
    to_Q. nra.
Qed.

Lemma apply_n_step_descends (n : nat) (C C' : list Qc) :
  descends C_left C_right C ->
  apply_n n (step D dt dx C_left C_right) C = Ok C' ->
  descends C_left C_right C'.
Proof.
  revert C; induction n as [|n IH]; intros C HC; cbn [apply_n].
  - now intros [= <-].
  - destruct (step D dt dx C_left C_right C) as [C1|e] eqn:E; cbn [bind];
      [|discriminate].
    apply IH. exact (step_descends C C1 HC E).
Qed.

End Stability.

(** Orders between given rationals. *)
Ltac qc_order := unfold Qcle, Qclt, Qle, Qlt; cbn; lia.

(** X7. With exact numbers and a coefficient [D*dt/dx**2] between [0] and
    [1/2], a range [[lo, hi]] that holds the boundary values and every entry
    of a non-empty field holds every entry after any number of steps: no
    step overshoots. *)
Theorem loop_stays_within :
  forall (D dt dx C_left C_right k lo hi : Qc) (nt : Z) (C : list Qc),
    coefficient D dt dx = Ok k ->
    (0 <= k)%Qc -> (Q2Qc 2 * k <= 1)%Qc ->
    (lo <= C_left)%Qc -> (C_left <= hi)%Qc ->
    (lo <= C_right)%Qc -> (C_right <= hi)%Qc ->
    C <> [] -> within lo hi C ->
    exists C' : list Qc,
      loop D dt dx nt C_left C_right C = Ok C' /\ within lo hi C'.
Proof.
  intros D dt dx C_left C_right k lo hi nt C Hk Hk0 Hk1 Hl1 Hl2 Hr1 Hr2
    HC Hin.
  rewrite loop_apply_n.
  destruct (apply_n_step_ok D dt dx C_left C_right k (Z.to_nat nt) C Hk HC)
    as [C' E].
  exists C'. split; [exact E|].
  exact (apply_n_step_within D dt dx C_left C_right k Hk Hk0 Hk1 lo hi
           (Z.to_nat nt) C C' Hl1 Hl2 Hr1 Hr2 Hin E).
Qed.

Lemma loop_stays_within_witness :
  exists C' : list Qc,
    loop (Q2Qc 1) (Q2Qc (1 # 4)) (Q2Qc 1) 5 (Q2Qc 10) (Q2Qc 8)
         (map Q2Qc [10; 20; 5; 0; 8]%Q) = Ok C' /\
    within (Q2Qc 0) (Q2Qc 20) C'.
Proof.
  apply (loop_stays_within (Q2Qc 1) (Q2Qc (1 # 4)) (Q2Qc 1) (Q2Qc 10)
           (Q2Qc 8) (Q2Qc 1 * Q2Qc (1 # 4) / (Q2Qc 1 * Q2Qc 1))%Qc
           (Q2Qc 0) (Q2Qc 20) 5%Z (map Q2Qc [10; 20; 5; 0; 8]%Q)).
  - reflexivity.
  - qc_order.
  - qc_order.
  - qc_order.
  - qc_order.
  - qc_order.
  - qc_order.
  - discriminate.
  - intros i Hi. cbn [length map] in Hi.
    do 5 (destruct i as [|i]; [split; qc_order|]). lia.
Defined.

(** X8. With exact numbers and a coefficient between [0] and [1/2], a
    non-increasing field of at least two entries that starts no higher than
    [C_left] and ends no lower than [C_right] is non-increasing after any
    number of steps: the profile does not oscillate. *)
Theorem loop_stays_nonincreasing :
  forall (D dt dx C_left C_right k : Qc) (nt : Z) (C : list Qc),
    coefficient D dt dx = Ok k ->
    (0 <= k)%Qc -> (Q2Qc 2 * k <= 1)%Qc ->
    descends C_left C_right C ->
    exists C' : list Qc,
      loop D dt dx nt C_left C_right C = Ok C' /\
      descends C_left C_right C'.
Proof.
  intros D dt dx C_left C_right k nt C Hk Hk0 Hk1 Hd.
  assert (HC : C <> []).
  { destruct Hd as (_ & Hn & _). destruct C; [simpl in Hn; lia|discriminate]. }
  rewrite loop_apply_n.
  destruct (apply_n_step_ok D dt dx C_left C_right k (Z.to_nat nt) C Hk HC)
    as [C' E].
  exists C'. split; [exact E|].
  exact (apply_n_step_descends D dt dx C_left C_right k Hk Hk0 Hk1
           (Z.to_nat nt) C C' Hd E).
Qed.

Lemma loop_stays_nonincreasing_witness :
  exists C' : list Qc,
    loop (Q2Qc 1) (Q2Qc (1 # 2)) (Q2Qc 1) 4 (Q2Qc 500) (Q2Qc 0)
         (map Q2Qc [500; 500; 0; 0]%Q) = Ok C' /\
    descends (Q2Qc 500) (Q2Qc 0) C'.
Proof.
  apply (loop_stays_nonincreasing (Q2Qc 1) (Q2Qc (1 # 2)) (Q2Qc 1)
           (Q2Qc 500) (Q2Qc 0)
           (Q2Qc 1 * Q2Qc (1 # 2) / (Q2Qc 1 * Q2Qc 1))%Qc 4%Z
           (map Q2Qc [500; 500; 0; 0]%Q)).
  - reflexivity.
  - qc_order.
  - qc_order.
  - split; [|split; [simpl; lia|split; qc_order]].
    intros i Hi. cbn [length map] in Hi.
    do 3 (destruct i as [|i]; [qc_order|]). lia.
Defined.

(** ** Steady states *)

Section Steady.

Open Scope Qc_scope.

Variables (D dt dx C_left C_right k : Qc).
Hypothesis Hk : coefficient D dt dx = Ok k.

Lemma harmonic_steady (C : list Qc) :
  (2 <= length C)%nat ->
  nth 0 C 0 = C_left -> nth (length C - 1) C 0 = C_right -> harmonic C ->
  step D dt dx C_left C_right C = Ok C.
Proof.
  intros Hn Hl Hr Hh.
  assert (HC : C <> []) by (destruct C; [simpl in Hn; lia|discriminate]).
  rewrite (step_ok D dt dx C_left C_right k C Hk HC). f_equal.
  apply (nth_ext _ _ 0 0);
    [now rewrite !update_length, updated_length|].
  intros i Hi. rewrite !update_length, updated_length in Hi.
  destruct (Nat.eq_dec i (length C - 1)) as [->|Hlast].
  { rewrite nth_update_eq by (rewrite update_length, updated_length; lia).
    now rewrite Hr. }
  rewrite nth_update_neq by exact Hlast.
  destruct (Nat.eq_dec i 0) as [->|Hfirst].
  { rewrite nth_update_eq by (rewrite updated_length; lia). now rewrite Hl. }
  rewrite nth_update_neq by exact Hfirst.
  pose proof (nth_updated_interior k C i ltac:(lia) ltac:(lia)) as E.
  cbn [zero add sub mul two exact] in E. rewrite E.
  pose proof (Hh i ltac:(lia) ltac:(lia)) as H0.
  replace (nth (i + 1) C 0 - Q2Qc 2 * nth i C 0 + nth (i - 1) C 0)
    with 0 by (now rewrite H0).
  ring.
Qed.

Lemma steady_harmonic (C : list Qc) :
  k <> 0 -> (2 <= length C)%nat ->
  step D dt dx C_left C_right C = Ok C ->
  nth 0 C 0 = C_left /\ nth (length C - 1) C 0 = C_right /\ harmonic C.
Proof.
  intros Hk0 Hn E.
  assert (HC : C <> []) by (destruct C; [simpl in Hn; lia|discriminate]).
  split; [exact (step_left D dt dx C_left C_right k C Hk C Hn E)|].
  split; [exact (step_right D dt dx C_left C_right k C Hk C HC E)|].
  intros i H1 H2.
  pose proof (step_interior D dt dx C_left C_right k C Hk C i
                ltac:(lia) E) as Ei.
  cbn [zero add sub mul two exact] in Ei.
  set (d := nth (i + 1) C 0 - Q2Qc 2 * nth i C 0 + nth (i - 1) C 0) in *.
  assert (Hz : k * d = 0).
  { replace (k * d) with (nth i C 0 + k * d - nth i C 0) by ring.
    rewrite <- Ei. ring. }
  destruct (Qcmult_integral _ _ Hz) as [H|H]; [contradiction|exact H].
Qed.

End Steady.

Section Line.

Open Scope Qc_scope.

Lemma of_nat_S (i : nat) :
  Q2Qc (inject_Z (Z.of_nat (S i))) = Q2Qc (inject_Z (Z.of_nat i)) + 1.
Proof.
  apply Qc_is_canon. rewrite this_plus, !this_Q2Qc.
  rewrite Nat2Z.inj_succ. unfold Z.succ. rewrite inject_Z_plus.
  reflexivity.
Qed.

Lemma of_nat_nonzero (i : nat) :
  (1 <= i)%nat -> Q2Qc (inject_Z (Z.of_nat i)) <> 0.
Proof.
  intros Hi E. apply Qc_eq_this in E. rewrite !this_Q2Qc in E.
  unfold Qeq in E. simpl in E. lia.
Qed.

Lemma two_is_1_plus_1 : Q2Qc 2 = 1 + 1.
Proof. now apply Qc_is_canon. Qed.

Lemma line_length (l r : Qc) (n : nat) : length (line l r n) = n.
Proof. unfold line. now rewrite length_map, length_seq. Qed.

Lemma nth_line (l r : Qc) (n i : nat) :
  (i < n)%nat ->
  nth i (line l r n) 0
  = l + Q2Qc (inject_Z (Z.of_nat i))
        * ((r - l) / Q2Qc (inject_Z (Z.of_nat (n - 1)))).
Proof.
  intros Hi. unfold line.
  set (f := fun i : nat => l + _ * _).
  rewrite (nth_indep (map f (seq 0 n)) 0 (f 0%nat))
    by (rewrite length_map, length_seq; lia).
  now rewrite map_nth, seq_nth by lia.
Qed.

Lemma line_first (l r : Qc) (n : nat) :
  (1 <= n)%nat -> nth 0 (line l r n) 0 = l.
Proof.
  intros Hn. rewrite nth_line by lia.
  change (Q2Qc (inject_Z (Z.of_nat 0))) with 0. ring.
Qed.

Lemma line_last (l r : Qc) (n : nat) :
  (2 <= n)%nat -> nth (n - 1) (line l r n) 0 = r.
Proof.
  intros Hn. rewrite nth_line by lia. field.
  apply of_nat_nonzero. lia.
Qed.

Lemma line_harmonic (l r : Qc) (n : nat) : harmonic (line l r n).
Proof.
  intros i H1 H2. rewrite line_length in H2.
  rewrite !nth_line by lia.
  replace (i + 1)%nat with (S i) by lia.
  replace i with (S (i - 1)) at 1 2 by lia.
  rewrite !of_nat_S, two_is_1_plus_1. ring.
Qed.

(** A field whose second differences vanish is the line through its first
    two entries. *)
Lemma harmonic_affine (C : list Qc) :
  harmonic C ->
  forall i : nat, (i < length C)%nat ->
    nth i C 0
    = nth 0 C 0 + Q2Qc (inject_Z (Z.of_nat i)) * (nth 1 C 0 - nth 0 C 0).
Proof.
  intros Hh.
  assert (P : forall i : nat,
             ((i < length C)%nat ->
              nth i C 0
              = nth 0 C 0
                + Q2Qc (inject_Z (Z.of_nat i)) * (nth 1 C 0 - nth 0 C 0)) /\
             ((S i < length C)%nat ->
              nth (S i) C 0
              = nth 0 C 0
                + Q2Qc (inject_Z (Z.of_nat (S i)))
                  * (nth 1 C 0 - nth 0 C 0))).
  { induction i as [|i [IH1 IH2]].
    - split; intros _.
      + change (Q2Qc (inject_Z (Z.of_nat 0))) with 0. ring.
      + change (Q2Qc (inject_Z (Z.of_nat 1))) with 1. ring.
    - split; [exact IH2|]. intros Hi.
      pose proof (Hh (S i) ltac:(lia) ltac:(lia)) as H.
      replace (S i + 1)%nat with (S (S i)) in H by lia.
      replace (S i - 1)%nat with i in H by lia.
      rewrite IH1, IH2 in H by lia.
      rewrite !of_nat_S, two_is_1_plus_1 in *.
      replace (nth (S (S i)) C 0)
        with (nth (S (S i)) C 0
              - (1 + 1)
                * (nth 0 C 0
                   + (Q2Qc (inject_Z (Z.of_nat i)) + 1)
                     * (nth 1 C 0 - nth 0 C 0))
              + (nth 0 C 0
                 + Q2Qc (inject_Z (Z.of_nat i)) * (nth 1 C 0 - nth 0 C 0))
              + (nth 0 C 0
                 + (Q2Qc (inject_Z (Z.of_nat i)) + 1 + 1)
                   * (nth 1 C 0 - nth 0 C 0)))
        by ring.
      rewrite H. ring. }
  intros i. exact (proj1 (P i)).
Qed.

Lemma harmonic_line (C : list Qc) :
  (2 <= length C)%nat -> harmonic C ->
  C = line (nth 0 C 0) (nth (length C - 1) C 0) (length C).
Proof.
  intros Hn Hh.
  pose proof (harmonic_affine C Hh) as Ha.
  assert (Hz : Q2Qc (inject_Z (Z.of_nat (length C - 1))) <> 0)
    by (apply of_nat_nonzero; lia).
  apply (nth_ext _ _ 0 0); [now rewrite line_length|].
  intros i Hi. rewrite nth_line by exact Hi.
  rewrite (Ha i Hi), (Ha (length C - 1)%nat) by lia.
  field. exact Hz.
Qed.

End Line.

(** X9. With exact numbers and a non-zero coefficient, a step returns the
    field it was given exactly when the field is the straight line from
    [C_left] to [C_right]; and any number of steps returns that line. *)
Theorem steady_iff_line :
  forall (D dt dx C_left C_right k : Qc) (C : list Qc),
    coefficient D dt dx = Ok k -> k <> 0%Qc -> (2 <= length C)%nat ->
    (step D dt dx C_left C_right C = Ok C
     <-> C = line C_left C_right (length C)) /\
    (forall nt : Z,
        loop D dt dx nt C_left C_right (line C_left C_right (length C))
        = Ok (line C_left C_right (length C))).
Proof.
  intros D dt dx C_left C_right k C Hk Hk0 Hn.
  assert (Hline : step D dt dx C_left C_right
                    (line C_left C_right (length C))
                  = Ok (line C_left C_right (length C))).
  { apply (harmonic_steady D dt dx C_left C_right k Hk).
    - now rewrite line_length.
    - apply line_first. lia.
    - rewrite line_length. now apply line_last.
    - apply line_harmonic. }
  split; [split|].
  - intros E.
    destruct (steady_harmonic D dt dx C_left C_right k Hk C Hk0 Hn E)
      as (Hl & Hr & Hh).
    rewrite <- Hl, <- Hr at 1. now apply harmonic_line.
  - intros HC. rewrite HC. exact Hline.
  - intros nt. rewrite loop_apply_n.
    induction (Z.to_nat nt) as [|n IH]; [reflexivity|].
    cbn [apply_n]. rewrite Hline. exact IH.
Qed.

Lemma steady_iff_line_witness :
  (step (Q2Qc 1) (Q2Qc (1 # 2)) (Q2Qc 1) (Q2Qc 8) (Q2Qc 0)
        (map Q2Qc [8; 6; 4; 2; 0]%Q) = Ok (map Q2Qc [8; 6; 4; 2; 0]%Q)
   <-> map Q2Qc [8; 6; 4; 2; 0]%Q
       = line (Q2Qc 8) (Q2Qc 0) (length (map Q2Qc [8; 6; 4; 2; 0]%Q))) /\
  (forall nt : Z,
      loop (Q2Qc 1) (Q2Qc (1 # 2)) (Q2Qc 1) nt (Q2Qc 8) (Q2Qc 0)
           (line (Q2Qc 8) (Q2Qc 0) (length (map Q2Qc [8; 6; 4; 2; 0]%Q)))
      = Ok (line (Q2Qc 8) (Q2Qc 0)
              (length (map Q2Qc [8; 6; 4; 2; 0]%Q)))).
Proof.
  apply (steady_iff_line (Q2Qc 1) (Q2Qc (1 # 2)) (Q2Qc 1) (Q2Qc 8) (Q2Qc 0)
           (Q2Qc 1 * Q2Qc (1 # 2) / (Q2Qc 1 * Q2Qc 1))%Qc
           (map Q2Qc [8; 6; 4; 2; 0]%Q)).
  - reflexivity.
  - discriminate.
  - simpl; lia.
Defined.

(** ** The sum of the field *)

Section Total.

Open Scope Qc_scope.

Lemma total_cons (x : Qc) (a : list Qc) : total (x :: a) = x + total a.
Proof. reflexivity. Qed.

Lemma total_app (a b : list Qc) : total (a ++ b) = total a + total b.
Proof.
  induction a as [|x a IH]; [change (total []) with 0; simpl app; ring|].
  simpl app. rewrite !total_cons, IH. ring.
Qed.

Lemma total_roll (a : list Qc) (s : Z) : total (roll a s) = total a.
Proof.
  destruct a as [|x a]; [reflexivity|]. unfold roll.
  set (l := x :: a). set (c := Z.to_nat _).
  rewrite total_app, Qcplus_comm, <- total_app. now rewrite firstn_skipn.
Qed.

Lemma total_map2_add (a b : list Qc) :
  length a = length b -> total (map2 Qcplus a b) = total a + total b.
Proof.
  revert b; induction a as [|x a IH]; intros [|y b] H; try discriminate H.
  - change (total []) with 0. simpl map2. change (total []) with 0. ring.
  - simpl map2. rewrite !total_cons, IH by (simpl in H; lia). ring.
Qed.

Lemma total_map2_sub (a b : list Qc) :
  length a = length b -> total (map2 Qcminus a b) = total a - total b.
Proof.
  revert b; induction a as [|x a IH]; intros [|y b] H; try discriminate H.
  - change (total []) with 0. simpl map2. change (total []) with 0. ring.
  - simpl map2. rewrite !total_cons, IH by (simpl in H; lia). ring.
Qed.

Lemma total_scale (c : Qc) (a : list Qc) :
  total (map (Qcmult c) a) = c * total a.
Proof.
  induction a as [|x a IH]; [simpl map; change (total []) with 0; ring|].
  simpl map. rewrite !total_cons, IH. ring.
Qed.

Lemma total_updated (k : Qc) (C : list Qc) : total (updated k C) = total C.
Proof.
  unfold updated, laplacian. cbn [add sub mul two exact].
  rewrite total_map2_add
    by (rewrite length_map, !map2_length, !roll_length, length_map; lia).
  rewrite total_scale, total_map2_add
    by (rewrite map2_length, !roll_length, length_map; lia).
  rewrite total_map2_sub by (rewrite roll_length, length_map; lia).
  rewrite total_scale, !total_roll, two_is_1_plus_1. ring.
Qed.

End Total.

(** X10. With exact numbers the statement [C += ...] leaves the sum of the
    field as it was: with the rotations wrapping around, what one entry
    gains its neighbours lose.  The sum changes only by what the two
    boundary assignments overwrite. *)
Theorem iadd_conserves_total :
  forall env env' : Env Qc,
    exec_iadd env = Ok env' ->
    total (v_C env') = total (v_C env) /\ unchanged env env'.
Proof.
  intros env env'. unfold exec_iadd.
  destruct (coefficient (v_D env) (v_dt env) (v_dx env)) as [k|e];
    cbn [bind]; [|discriminate].
  intros [= <-]. cbn [v_C set_C]. split; [apply total_updated|].
  now repeat split.
Qed.

Lemma iadd_conserves_total_witness :
  total (map Q2Qc [14; 15 # 2; 10; 13 # 2; 5]%Q)
  = total (map Q2Qc [10; 20; 5; 0; 8]%Q).
Proof.
  apply (iadd_conserves_total
           {| v_D := Q2Qc 1; v_Lx := Q2Qc 4; v_dx := Q2Qc 1; v_x := [];
              v_C := map Q2Qc [10; 20; 5; 0; 8]%Q;
              v_C_left := Q2Qc 10; v_C_right := Q2Qc 8;
              v_time := 0; v_nt := 1; v_dt := Q2Qc (1 # 2); v_t := None |}
           {| v_D := Q2Qc 1; v_Lx := Q2Qc 4; v_dx := Q2Qc 1; v_x := [];
              v_C := map Q2Qc [14; 15 # 2; 10; 13 # 2; 5]%Q;
              v_C_left := Q2Qc 10; v_C_right := Q2Qc 8;
              v_time := 0; v_nt := 1; v_dt := Q2Qc (1 # 2); v_t := None |}).
  vm_compute. reflexivity.
Defined.

(** * Item assignment and the distance to the steady state *)

(** X15. The item assignment [a[i] = v] succeeds exactly for
    [-len(a) <= i < len(a)]: it then writes [v] at index [i mod len(a)] (so
    [-1] is the last entry) and leaves the length and every other entry as
    they were; any other index raises [IndexError]. *)
Theorem setitem_bounds :
  forall (A : Type) (a : list A) (i : Z) (v d : A),
    ((- Z.of_nat (length a) <= i < Z.of_nat (length a))%Z ->
     exists a' : list A,
       setitem a i v = Ok a' /\
       length a' = length a /\
       nth (Z.to_nat (i mod Z.of_nat (length a))) a' d = v /\
       forall j : nat,
         j <> Z.to_nat (i mod Z.of_nat (length a)) ->
         nth j a' d = nth j a d) /\
    (~ (- Z.of_nat (length a) <= i < Z.of_nat (length a))%Z ->
     setitem a i v = Raise IndexError).
Proof.
  intros A a i v d. unfold setitem.
  set (n := Z.of_nat (length a)).
  set (j := if (i <? 0)%Z then (i + n)%Z else i).
  assert (Hj : (- n <= i < n)%Z -> j = (i mod n)%Z /\ (0 <= j < n)%Z).
  { intros Hi. unfold j. destruct (Z.ltb_spec i 0) as [Hneg|Hpos].
    - split; [|lia]. apply (Z.mod_unique _ _ (-1)%Z); lia.
    - split; [|lia]. symmetry. apply Z.mod_small. lia. }
  split.
  - intros Hi. destruct (Hj Hi) as [Ej Hb]. rewrite <- Ej.
    destruct (Z.leb_spec 0 j); [|lia].
    destruct (Z.ltb_spec j n); [|lia]. cbn [andb].
    eexists. split; [reflexivity|]. split; [apply update_length|].
    split; [apply nth_update_eq; unfold n in *; lia|].
    intros k Hk. now apply nth_update_neq.
  - intros Hi.
    destruct ((0 <=? j) && (j <? n))%Z eqn:B; [|reflexivity].
    exfalso. apply Hi. apply andb_prop in B as [B1 B2].
    apply Z.leb_le in B1. apply Z.ltb_lt in B2. unfold j in B1, B2.
    destruct (Z.ltb_spec i 0); lia.
Qed.

Lemma setitem_bounds_witness :
  exists a' : list nat,
    setitem [1; 2; 3]%nat (-1) 9%nat = Ok a' /\
    length a' = length [1; 2; 3]%nat /\
    nth (Z.to_nat (-1 mod Z.of_nat (length [1; 2; 3]%nat))) a' 0%nat = 9%nat /\
    forall j : nat,
      j <> Z.to_nat (-1 mod Z.of_nat (length [1; 2; 3]%nat)) ->
      nth j a' 0%nat = nth j [1; 2; 3]%nat 0%nat.
Proof.
  apply (proj1 (setitem_bounds nat [1; 2; 3]%nat (-1) 9%nat 0%nat)).
  simpl; lia.
Defined.

Section Distance.

Open Scope Qc_scope.

Variables (D dt dx C_left C_right k M : Qc).
Hypothesis Hk : coefficient D dt dx = Ok k.
Hypothesis Hk0 : 0 <= k.
Hypothesis Hk1 : Q2Qc 2 * k <= 1.

Lemma step_near (C C' : list Qc) :
  (2 <= length C)%nat ->
  near M (line C_left C_right (length C)) C ->
  step D dt dx C_left C_right C = Ok C' ->
  near M (line C_left C_right (length C')) C'.
Proof.
  intros Hn Hnear E i Hi.
  pose proof (step_length D dt dx C_left C_right C C' E) as Hlen.
  rewrite Hlen in *.
  set (L := line C_left C_right (length C)) in *.
  assert (HM : 0 <= M).
  { destruct (Hnear 0%nat ltac:(lia)) as [H1 H2]. to_Q. lra. }
  destruct (step_entry D dt dx C_left C_right k Hk C C' i E Hi)
    as [[Hi1 ->]|[(Hi0 & _ & ->)|[Hint ->]]].
  - subst i. unfold L. rewrite line_last by lia. split; to_Q; lra.
  - subst i. unfold L. rewrite line_first by lia. split; to_Q; lra.
  - pose proof (line_harmonic C_left C_right (length C) i ltac:(lia)
                  ltac:(unfold line; rewrite length_map, length_seq; lia))
      as Hh.
    fold L in Hh.
    destruct (Hnear i ltac:(lia)) as [Hb1 Hb2].
    destruct (Hnear (i + 1)%nat ltac:(lia)) as [Hc1 Hc2].
    destruct (Hnear (i - 1)%nat ltac:(lia)) as [Ha1 Ha2].
    split; to_Q; nra.
Qed.

Lemma apply_n_step_near (n : nat) (C C' : list Qc) :
  (2 <= length C)%nat ->
  near M (line C_left C_right (length C)) C ->
  apply_n n (step D dt dx C_left C_right) C = Ok C' ->
  near M (line C_left C_right (length C')) C'.
Proof.
  revert C; induction n as [|n IH]; intros C Hn Hnear; cbn [apply_n].
  - now intros [= <-].
  - destruct (step D dt dx C_left C_right C) as [C1|e] eqn:E; cbn [bind];
      [|discriminate].
    apply IH.
    + now rewrite (step_length D dt dx C_left C_right C C1 E).
    + exact (step_near C C1 Hn Hnear E).
Qed.

End Distance.

(** X16. With exact numbers and a coefficient between [0] and [1/2], the
    field never moves away from the steady state: if every entry of a field
    of at least two entries is within [M] of the straight line from
    [C_left] to [C_right], so is every entry after any number of steps. *)
Theorem distance_to_line_never_grows :
  forall (D dt dx C_left C_right k M : Qc) (nt : Z) (C : list Qc),
    coefficient D dt dx = Ok k ->
    (0 <= k)%Qc -> (Q2Qc 2 * k <= 1)%Qc ->
    (2 <= length C)%nat ->
    near M (line C_left C_right (length C)) C ->
    exists C' : list Qc,
      loop D dt dx nt C_left C_right C = Ok C' /\
      length C' = length C /\
      near M (line C_left C_right (length C)) C'.
Proof.
  intros D dt dx C_left C_right k M nt C Hk Hk0 Hk1 Hn Hnear.
  assert (HC : C <> []) by (destruct C; [simpl in Hn; lia|discriminate]).
  rewrite loop_apply_n.
  destruct (apply_n_step_ok D dt dx C_left C_right k (Z.to_nat nt) C Hk HC)
    as [C' E].
  pose proof (apply_n_step_length D dt dx C_left C_right _ C C' E) as Hlen.
  exists C'. split; [exact E|]. split; [exact Hlen|].
  rewrite <- Hlen.
  exact (apply_n_step_near D dt dx C_left C_right k M Hk Hk0 Hk1
           (Z.to_nat nt) C C' Hn Hnear E).
Qed.

Lemma distance_to_line_never_grows_witness :
  exists C' : list Qc,
    loop (Q2Qc 1) (Q2Qc (1 # 2)) (Q2Qc 1) 4 (Q2Qc 8) (Q2Qc 0)
         (map Q2Qc [8; 8; 8; 0; 0]%Q) = Ok C' /\
    length C' = length (map Q2Qc [8; 8; 8; 0; 0]%Q) /\
    near (Q2Qc 4)
         (line (Q2Qc 8) (Q2Qc 0) (length (map Q2Qc [8; 8; 8; 0; 0]%Q))) C'.
Proof.
  apply (distance_to_line_never_grows (Q2Qc 1) (Q2Qc (1 # 2)) (Q2Qc 1)
           (Q2Qc 8) (Q2Qc 0)
           (Q2Qc 1 * Q2Qc (1 # 2) / (Q2Qc 1 * Q2Qc 1))%Qc (Q2Qc 4) 4%Z
           (map Q2Qc [8; 8; 8; 0; 0]%Q)).
  - reflexivity.
  - qc_order.
  - qc_order.
  - simpl; lia.
  - intros i Hi. cbn [length map] in Hi.
    do 5 (destruct i as [|i]; [split; vm_compute; discriminate|]). lia.
Defined.

(** * binary64 runs and the C library *)

Lemma apply_n_ext {St : Type} (f g : St -> result St) (n : nat) (s : St) :
  (forall s', f s' = g s') -> apply_n n f s = apply_n n g s.
Proof.
  intros E. revert s; induction n as [|n IH]; intros s; [reflexivity|].
  cbn [apply_n]. rewrite E. destruct (g s); cbn [bind]; auto.
Qed.

Section TwoLibraries.

Variables (L L' : Libm) (dx : float).

(** The two libraries agree on the one call [dx ** 2] makes, if it makes
    one. *)
Hypothesis Hagree :
  float_pow2_special dx = None ->
  c_pow2 L (PrimFloat.abs dx) = c_pow2 L' (PrimFloat.abs dx) /\
  c_pow2_erange L (PrimFloat.abs dx) = c_pow2_erange L' (PrimFloat.abs dx).

Lemma pow2_same :
  pow2 (N := binary64 L) dx = pow2 (N := binary64 L') dx.
Proof.
  unfold pow2. cbn [pow2_overflows square binary64].
  unfold float_pow2_raises, float_square.
  destruct (float_pow2_special dx) as [y|]; [reflexivity|].
  destruct (Hagree eq_refl) as [Ev Ee]. now rewrite Ev, Ee.
Qed.

Lemma select_dt_same (D : float) :
  select_dt (N := binary64 L) dx D = select_dt (N := binary64 L') dx D.
Proof. unfold select_dt. now rewrite pow2_same. Qed.

Lemma step_same (D dt C_left C_right : float) (C : list float) :
  step (N := binary64 L) D dt dx C_left C_right C
  = step (N := binary64 L') D dt dx C_left C_right C.
Proof. unfold step, coefficient. now rewrite pow2_same. Qed.

Lemma loop_same (D dt : float) (nt : Z) (C_left C_right : float)
  (C : list float) :
  loop (N := binary64 L) D dt dx nt C_left C_right C
  = loop (N := binary64 L') D dt dx nt C_left C_right C.
Proof.
  rewrite !loop_apply_n. apply apply_n_ext. intros C1. apply step_same.
Qed.

End TwoLibraries.

(** X17. A binary64 run depends on the C library only through the call
    [pow(|dx|, 2.0)] that [dx ** 2] makes: two libraries that return the same
    value and the same range error there give the same time step, the same
    loop and the same run, exceptions included; for [dx] a nan, an infinity,
    a zero or [+-1], which CPython answers itself, any two libraries do. *)
Theorem library_enters_through_one_call :
  forall (L L' : Libm) (dx : float),
    (float_pow2_special dx = None ->
     c_pow2 L (PrimFloat.abs dx) = c_pow2 L' (PrimFloat.abs dx) /\
     c_pow2_erange L (PrimFloat.abs dx)
     = c_pow2_erange L' (PrimFloat.abs dx)) ->
    (forall D : float,
        select_dt (N := binary64 L) dx D
        = select_dt (N := binary64 L') dx D) /\
    (forall (D dt C_left C_right : float) (nt : Z) (C : list float),
        loop (N := binary64 L) D dt dx nt C_left C_right C
        = loop (N := binary64 L') D dt dx nt C_left C_right C) /\
    (forall (C : list float) (D : float) (nt : Z) (C_left C_right : float),
        simulate (N := binary64 L) C D dx nt C_left C_right
        = simulate (N := binary64 L') C D dx nt C_left C_right).
Proof.
  intros L L' dx Hagree. split; [|split].
  - intros D. now apply select_dt_same.
  - intros D dt C_left C_right nt C. now apply loop_same.
  - intros C D nt C_left C_right. unfold simulate.
    rewrite (select_dt_same L L' dx Hagree D).
    destruct (select_dt dx D) as [dt|e]; cbn [bind]; [|reflexivity].
    now apply loop_same.
Qed.

Lemma library_enters_through_one_call_witness :
  (forall D : float,
      select_dt (N := binary64 correctly_rounded) 0.5%float D
      = select_dt
          (N := binary64
                  {| c_pow2 := fun x =>
                       if PrimFloat.eqb x 0.5 then 0.25%float else 0%float;
                     c_pow2_erange := fun _ => false |})
          0.5%float D) /\
  (forall (D dt C_left C_right : float) (nt : Z) (C : list float),
      loop (N := binary64 correctly_rounded) D dt 0.5%float nt
           C_left C_right C
      = loop
          (N := binary64
                  {| c_pow2 := fun x =>
                       if PrimFloat.eqb x 0.5 then 0.25%float else 0%float;
                     c_pow2_erange := fun _ => false |})
          D dt 0.5%float nt C_left C_right C) /\
  (forall (C : list float) (D : float) (nt : Z) (C_left C_right : float),
      simulate (N := binary64 correctly_rounded) C D 0.5%float nt
               C_left C_right
      = simulate
          (N := binary64
                  {| c_pow2 := fun x =>
                       if PrimFloat.eqb x 0.5 then 0.25%float else 0%float;
                     c_pow2_erange := fun _ => false |})
          C D 0.5%float nt C_left C_right).
Proof.
  apply (library_enters_through_one_call correctly_rounded
           {| c_pow2 := fun x =>
                if PrimFloat.eqb x 0.5 then 0.25%float else 0%float;
              c_pow2_erange := fun _ => false |}
           0.5%float).
  intros _. split; vm_compute; reflexivity.
Defined.

(** * The sign of the spacing *)

(** [dx] enters both cells as [dx ** 2] only. *)
Section SameSquare.

Context {F : Type} {N : Num F}.

Variables dx dx' : F.
Hypothesis Hsq : pow2 dx = pow2 dx'.

Lemma step_same_square (D dt C_left C_right : F) (C : list F) :
  step D dt dx C_left C_right C = step D dt dx' C_left C_right C.
Proof. unfold step, coefficient. now rewrite Hsq. Qed.

Lemma loop_same_square (D dt : F) (nt : Z) (C_left C_right : F)
  (C : list F) :
  loop D dt dx nt C_left C_right C = loop D dt dx' nt C_left C_right C.
Proof.
  rewrite !loop_apply_n. apply apply_n_ext. intros C1.
  apply step_same_square.
Qed.

Context {Lit : Half F}.

Lemma select_dt_same_square (D : F) : select_dt dx D = select_dt dx' D.
Proof. unfold select_dt. now rewrite Hsq. Qed.

Lemma simulate_same_square (C : list F) (D : F) (nt : Z)
  (C_left C_right : F) :
  simulate C D dx nt C_left C_right = simulate C D dx' nt C_left C_right.
Proof.
  unfold simulate. rewrite select_dt_same_square.
  destruct (select_dt dx' D) as [dt|e]; cbn [bind]; [|reflexivity].
  apply loop_same_square.
Qed.

End SameSquare.

(** The sign of a [float] is lost on the way to the C library. *)
Lemma abs_opp (x : float) :
  PrimFloat.abs (PrimFloat.opp x) = PrimFloat.abs x.
Proof.
  apply Prim2SF_inj. rewrite !abs_spec, opp_spec.
  now destruct (Prim2SF x).
Qed.

Lemma SFcompare_refl (x : spec_float) :
  SFcompare x x = match x with S754_nan => None | _ => Some Eq end.
Proof.
  destruct x as [s|s| |s m e]; cbn; try reflexivity.
  - now destruct s.
  - rewrite Z.compare_refl, Pos.compare_cont_refl. now destruct s.
Qed.

Lemma is_nan_opp (x : float) :
  PrimFloat.is_nan (PrimFloat.opp x) = PrimFloat.is_nan x.
Proof.
  unfold PrimFloat.is_nan. rewrite !eqb_spec, opp_spec. unfold SFeqb.
  rewrite !SFcompare_refl. now destruct (Prim2SF x).
Qed.

Lemma nan_opp (x : float) :
  PrimFloat.is_nan x = true -> PrimFloat.opp x = x.
Proof.
  unfold PrimFloat.is_nan. rewrite eqb_spec. unfold SFeqb.
  rewrite SFcompare_refl. intros E. apply Prim2SF_inj. rewrite opp_spec.
  destruct (Prim2SF x); (discriminate || reflexivity).
Qed.

Lemma eqb_zero_opp (x : float) :
  PrimFloat.eqb (PrimFloat.opp x) 0 = PrimFloat.eqb x 0.
Proof.
  rewrite !eqb_spec, opp_spec.
  change (Prim2SF 0%float) with (S754_zero false).
  unfold SFeqb. destruct (Prim2SF x) as [s|s| |s m e]; cbn; try reflexivity;
    now destruct s.
Qed.

Lemma float_pow2_special_opp (x : float) :
  float_pow2_special (PrimFloat.opp x) = float_pow2_special x.
Proof.
  unfold float_pow2_special, PrimFloat.is_infinity.
  rewrite is_nan_opp, abs_opp, eqb_zero_opp.
  destruct (PrimFloat.is_nan x) eqn:E; [|reflexivity].
  now rewrite nan_opp.
Qed.

Lemma float_pow2_opp (L : Libm) (x : float) :
  pow2 (N := binary64 L) (PrimFloat.opp x) = pow2 (N := binary64 L) x.
Proof.
  unfold pow2. cbn [pow2_overflows square binary64].
  unfold float_pow2_raises, float_square.
  now rewrite float_pow2_special_opp, abs_opp.
Qed.

Lemma exact_pow2_opp (x : Qc) : pow2 (- x)%Qc = pow2 x.
Proof. unfold pow2. cbn. f_equal. ring. Qed.

(** X18. A run does not see the sign of [dx]: in binary64, on any C library,
    [-dx] gives the same [dx ** 2] as [dx] (its value or its exception), and
    so the same time step, the same loop and the same whole run; with exact
    numbers the loop cell does the same. *)
Theorem run_ignores_sign_of_dx :
  (forall (L : Libm) (dx : float),
      pow2 (N := binary64 L) (PrimFloat.opp dx) = pow2 (N := binary64 L) dx /\
      (forall D : float,
          select_dt (N := binary64 L) (PrimFloat.opp dx) D
          = select_dt (N := binary64 L) dx D) /\
      (forall (D dt C_left C_right : float) (nt : Z) (C : list float),
          loop (N := binary64 L) D dt (PrimFloat.opp dx) nt C_left C_right C
          = loop (N := binary64 L) D dt dx nt C_left C_right C) /\
      (forall (C : list float) (D : float) (nt : Z) (C_left C_right : float),
          simulate (N := binary64 L) C D (PrimFloat.opp dx) nt C_left C_right
          = simulate (N := binary64 L) C D dx nt C_left C_right))
  /\ (forall (dx D dt C_left C_right : Qc) (nt : Z) (C : list Qc),
      loop D dt (- dx)%Qc nt C_left C_right C
      = loop D dt dx nt C_left C_right C).
Proof.
  split.
  - intros L dx. pose proof (float_pow2_opp L dx) as Hsq.
    split; [exact Hsq|]. split; [|split].
    + intros D. now apply select_dt_same_square.
    + intros D dt C_left C_right nt C. now apply loop_same_square.
    + intros C D nt C_left C_right. now apply simulate_same_square.
  - intros dx D dt C_left C_right nt C.
    apply loop_same_square, exact_pow2_opp.
Qed.
